(** * GameManager: the game-session scheduler of [src/server/GameManager.ts]

    A shallow embedding of the [GameManager] class and the properties of
    its tick, its map playlist and its request routing.

    The class is stateful and works on shared [GameServer] objects, so the
    embedding threads an explicit state through a small state-and-exception
    monad: the fields of the manager, an object store holding the
    [GameServer] instances the [games] array refers to, and the console
    output.  The collaborators whose sources are in other files of the
    repository ([GameServer], [PseudoRandom], the [GameMapType] enum, the
    server configuration) are interfaces here. *)

From Stdlib Require Import ZArith Lia.
From stdpp Require Import base tactics option list strings gmap.

(** ** Plain data of [core/Schemas] and [core/game/Game] *)

Definition GameID := string.

(** A thrown JavaScript value. *)
Definition Error := string.

(** An object reference: the address of a [GameServer] in the store. *)
Abbreviation loc := nat (only parsing).

Inductive GamePhase := Lobby | Active | Finished.

#[global] Instance GamePhase_eq_dec : EqDecision GamePhase.
Proof. solve_decision. Defined.

(** The members of the enums that [GameManager.ts] mentions. *)
Inductive GameType := Public | Private.
Inductive Difficulty := Medium.

(** [GameConfig]: the object literals built in [createPrivateGame] and
    [tick].  [gameMap] is whatever [getNextMap] returned, which is
    [undefined] ([None]) when [shift] is applied to an empty array. *)
Record GameConfig (MapT : Type) := mkGameConfig {
  gameMap : option MapT;
  gameType : GameType;
  difficulty : Difficulty;
  disableNPCs : bool;
  infiniteGold : bool;
  infiniteTroops : bool;
  instantBuild : bool;
  bots : Z
}.
Arguments mkGameConfig {MapT}.
Arguments gameMap {MapT}.
Arguments gameType {MapT}.
Arguments bots {MapT}.

(** Modelled from the spec: the server configuration record
    ([core/configuration/Config.ts] is not among the sources); the spec
    asks for a record exposing the lobby-creation interval, which is the
    only member [GameManager] reads ([gameCreationRate()]). *)
Record ServerConfig := mkServerConfig { gameCreationRate : Z }.

(** ** Interfaces of the collaborators *)

(** The [GameMapType] enum: [Object.keys(GameMapType)], the member lookup
    [GameMapType[key]] and [===] on its values. *)
Class GameMapTypeEnum (MapT : Type) := {
  GameMapType_eq_dec :: EqDecision MapT;
  GameMapType_keys : list string;
  GameMapType_get : string -> MapT
}.

(** [PseudoRandom]: the constructor from a seed and [shuffleArray], which
    shuffles the array in place and advances the generator. *)
Class PseudoRandomClass (R : Type) := {
  PseudoRandom_new : Z -> R;
  shuffleArray : forall A : Type, R -> list A -> R * list A
}.
Arguments shuffleArray {R _ A}.

(** [GameServer]: the members [GameManager] uses.  A method maps the
    state of the receiver to its new state and, when it throws, to the
    thrown value. *)
Class GameServerClass (MapT Client GS : Type) := {
  GameServer_new : GameID -> Z -> bool -> ServerConfig -> GameConfig MapT -> GS;
  gs_id : GS -> GameID;
  gs_isPublic : GS -> bool;
  gs_phase : GS -> GamePhase;
  gs_hasStarted : GS -> bool;
  gs_start : GS -> GS * option Error;
  gs_endGame : GS -> GS * option Error;
  gs_addClient : Client -> Z -> GS -> GS * option Error;
  gs_updateGameConfig : GameConfig MapT -> GS -> GS * option Error
}.

(** ** The state-and-exception monad *)

(** What a call does: it returns, it throws, or (for the [while (true)]
    loop of [getNextMap]) it is still running when the fuel is used up. *)
Inductive Outcome (W A : Type) :=
| Returns (a : A) (w : W)
| Throws (e : Error) (w : W)
| OutOfFuel.
Arguments Returns {W A}.
Arguments Throws {W A}.
Arguments OutOfFuel {W A}.

Definition M (W A : Type) : Type := W -> Outcome W A.

#[global] Instance M_ret {W} : MRet (M W) := fun A a w => Returns a w.

#[global] Instance M_bind {W} : MBind (M W) := fun A B f m w =>
  match m w with
  | Returns a w' => f a w'
  | Throws e w' => Throws e w'
  | OutOfFuel => OutOfFuel
  end.

Definition gets {W A} (f : W -> A) : M W A := fun w => Returns (f w) w.
Definition modify {W} (f : W -> W) : M W unit := fun w => Returns tt (f w).
Definition throw {W A} (e : Error) : M W A := fun w => Throws e w.
Definition out_of_fuel {W A} : M W A := fun _ => OutOfFuel.

(** [try { m } catch (error) { h error }] *)
Definition try_catch {W A} (m : M W A) (h : Error -> M W A) : M W A := fun w =>
  match m w with
  | Throws e w' => h e w'
  | o => o
  end.

(** [array.forEach(f)] on an array nobody else mutates meanwhile. *)
Fixpoint forEach {W A} (l : list A) (f : A -> M W unit) : M W unit :=
  match l with
  | [] => mret tt
  | x :: l' => f x ;; forEach l' f
  end.

(** The state a call ends in, when it ends. *)
Definition final {W A} (o : Outcome W A) : option W :=
  match o with
  | Returns _ w | Throws _ w => Some w
  | OutOfFuel => None
  end.

(** ** Console output and method invocations *)

(** [Invoke m g] records that method [m] of the object at [g] was called
    (whether it then returned or threw); the other two are the lines
    written with [console.warn] and [console.log]. *)
Inductive Event :=
| Invoke (method : string) (g : loc)
| ConsoleWarn (msg : string)
| ConsoleLog (msg : string) (arg : option Error).

#[global] Instance Event_eq_dec : EqDecision Event.
Proof. solve_decision. Defined.

(** For statements about every session of a concrete [games]: one case
    per reference [Hg] ranges over, with the object [Ho] finds there. *)
Ltac each_session Hg Ho tac :=
  repeat (apply elem_of_cons in Hg as [-> | Hg]; [injection Ho as <-; tac|]);
  by apply elem_of_nil in Hg.

(** ** The manager *)

Section GameManager.
Context {MapT Client GS R : Type}.
Context `{!GameMapTypeEnum MapT, !PseudoRandomClass R,
          !GameServerClass MapT Client GS}.

(** The fields of [GameManager] (lines 11-18), the store of the
    [GameServer] objects and the console. *)
Record State := mkState {
  config : ServerConfig;
  lastNewLobby : Z;
  mapsPlaylist : list MapT;
  games : list loc;
  random : R;
  heap : list GS;
  trace : list Event
}.

Definition set_lastNewLobby (v : Z) (s : State) : State :=
  mkState (config s) v (mapsPlaylist s) (games s) (random s) (heap s) (trace s).
Definition set_mapsPlaylist (v : list MapT) (s : State) : State :=
  mkState (config s) (lastNewLobby s) v (games s) (random s) (heap s) (trace s).
Definition set_games (v : list loc) (s : State) : State :=
  mkState (config s) (lastNewLobby s) (mapsPlaylist s) v (random s) (heap s) (trace s).
Definition set_random (v : R) (s : State) : State :=
  mkState (config s) (lastNewLobby s) (mapsPlaylist s) (games s) v (heap s) (trace s).
Definition set_heap (v : list GS) (s : State) : State :=
  mkState (config s) (lastNewLobby s) (mapsPlaylist s) (games s) (random s) v (trace s).
Definition set_trace (v : list Event) (s : State) : State :=
  mkState (config s) (lastNewLobby s) (mapsPlaylist s) (games s) (random s) (heap s) v.

(** [new GameManager(config)]: the field initialisers of lines 11-16. *)
Definition GameManager_new (c : ServerConfig) (h : list GS) : State :=
  mkState c 0 [] [] (PseudoRandom_new 123) h [].

Definition emit (e : Event) : M State unit :=
  modify (fun s => set_trace (trace s ++ [e]) s).

(** *** Working on the objects of the store *)

(** A property of the object at [g], as a callback such as
    [(g) => g.phase() == phase] reads it.  A reference outside the store
    does not arise in JavaScript; it has no property here. *)
Definition test (p : GS -> bool) (s : State) (g : loc) : bool :=
  match heap s !! g with
  | Some o => p o
  | None => false
  end.

(** [array.filter((g) => p(g))] *)
Definition filter_games (p : GS -> bool) (l : list loc) : M State (list loc) :=
  fun s => Returns (filter (fun g => test p s g = true) l) s.

(** [this.games.find((g) => g.id == gameID)] *)
Fixpoint find_id (gameID : GameID) (s : State) (l : list loc) : option loc :=
  match l with
  | [] => None
  | g :: l' => if test (fun o => bool_decide (gs_id o = gameID)) s g
               then Some g else find_id gameID s l'
  end.

Definition find_game (gameID : GameID) : M State (option loc) :=
  fun s => Returns (find_id gameID s (games s)) s.

(** [g.method(...)]: the call is recorded, the receiver is updated in
    the store, and the exception, if any, is raised. *)
Definition invoke (name : string) (method : GS -> GS * option Error)
    (g : loc) : M State unit :=
  fun s =>
    match heap s !! g with
    | Some o =>
        let s' := set_trace (trace s ++ [Invoke name g])
                    (set_heap (<[g := (method o).1]> (heap s)) s) in
        match (method o).2 with
        | None => Returns tt s'
        | Some e => Throws e s'
        end
    | None => Returns tt s
    end.

(** Reading the object at [g] for a statement that uses its members. *)
Definition with_game (g : loc) (k : GS -> M State unit) : M State unit :=
  fun s =>
    match heap s !! g with
    | Some o => k o s
    | None => Returns tt s
    end.

(** [new GameServer(...)]: a new object, at a new address. *)
Definition new_GameServer (id : GameID) (createdAt : Z) (isPublic : bool)
    (gameConfig : GameConfig MapT) : M State loc :=
  fun s =>
    Returns (length (heap s))
      (set_heap (heap s ++ [GameServer_new id createdAt isPublic (config s) gameConfig]) s).

(** *** Lines 20-26 *)

Definition game (id : GameID) : M State (option loc) := find_game id.

Definition gamesByPhase (phase : GamePhase) : M State (list loc) :=
  l ← gets games;
  filter_games (fun g => bool_decide (gs_phase g = phase)) l.

(** *** Lines 28-35 *)

Definition addClient (client : Client) (gameID : GameID) (lastTurn : Z)
    : M State bool :=
  game ← find_game gameID;
  match game with
  | Some g => invoke "addClient" (gs_addClient client lastTurn) g ;; mret true
  | None => mret false
  end.

(** *** Lines 37-48 *)

Definition updateGameConfig (gameID : GameID) (gameConfig : GameConfig MapT)
    : M State unit :=
  game ← find_game gameID;
  match game with
  | None => emit (ConsoleWarn ("game " +:+ gameID +:+ " not found"))
  | Some g =>
      with_game g (fun o =>
        if gs_isPublic o
        then emit (ConsoleWarn ("cannot update public game " +:+ gameID))
        else invoke "updateGameConfig" (gs_updateGameConfig gameConfig) g)
  end.

(** *** Lines 50-65; [generateID()] and [Date.now()] are inputs *)

Definition createPrivateGame (id : GameID) (now : Z) : M State GameID :=
  g ← new_GameServer id now false
        (mkGameConfig (Some (GameMapType_get "World")) Private Medium
           false false false false 1000);
  l ← gets games;
  modify (set_games (l ++ [g])) ;;
  mret id.

(** *** Lines 67-74 *)

Definition hasActiveGame (gameID : GameID) : M State bool :=
  l ← gets games;
  l1 ← filter_games (fun g => bool_decide (gs_id g = gameID)) l;
  l2 ← filter_games (fun g => bool_decide (gs_phase g = Lobby)
                            || bool_decide (gs_phase g = Active)) l1;
  mret (bool_decide (0 < length l2)).

(** *** Lines 77-85 *)

Definition startPrivateGame (gameID : GameID) : M State unit :=
  game ← find_game gameID;
  emit (ConsoleLog ("found game " +:+
          match game with
          | Some _ => "[object Object]"
          | None => "undefined"
          end) None) ;;
  match game with
  | Some g => invoke "start" gs_start g
  | None => throw ("cannot start private game, game " +:+ gameID +:+ " not found")
  end.

(** *** Lines 87-119: the map playlist *)

(** [this.mapsPlaylist.shift()], [undefined] on an empty array. *)
Definition shift : M State (option MapT) :=
  fun s =>
    match mapsPlaylist s with
    | [] => Returns None s
    | m :: rest => Returns (Some m) (set_mapsPlaylist rest s)
    end.

(** [parseInt(frequency[key])]: the entry of the table, [NaN] ([None])
    for a key the table does not have. *)
Definition parseInt (v : option Z) : option Z := v.

(** [while (count > 0) { this.mapsPlaylist.push(m); count-- }], which
    runs [count] times for a positive [count] and not at all for zero,
    a negative number or [NaN]. *)
Fixpoint push_while (count : nat) (m : MapT) (playlist : list MapT) : list MapT :=
  match count with
  | O => playlist
  | S count' => push_while count' m (playlist ++ [m])
  end.

Definition push_key (frequency : gmap string Z) (playlist : list MapT)
    (key : string) : list MapT :=
  match parseInt (frequency !! key) with
  | Some count => push_while (Z.to_nat count) (GameMapType_get key) playlist
  | None => playlist
  end.

(** [Object.keys(GameMapType).map((key) => { ... })] (lines 104-111) *)
Definition fill_playlist (frequency : gmap string Z) : M State unit :=
  modify (fun s =>
    set_mapsPlaylist (foldl (push_key frequency) (mapsPlaylist s) GameMapType_keys) s).

(** [this.random.shuffleArray(this.mapsPlaylist)] *)
Definition shuffled (s : State) : State :=
  let r := shuffleArray (random s) (mapsPlaylist s) in
  set_mapsPlaylist r.2 (set_random r.1 s).

Definition shuffle_playlist : M State unit := modify shuffled.

(** Lines 121-129: the [for] loop from index [i], with [n] iterations
    left. *)
Fixpoint allNonConsecutive_from (n i : nat) (maps : list MapT) : bool :=
  match n with
  | O => true
  | S n' => if decide (maps !! i = maps !! (S i)) then false
            else allNonConsecutive_from n' (S i) maps
  end.

Definition allNonConsecutive (maps : list MapT) : bool :=
  allNonConsecutive_from (length maps - 1) 0 maps.

(** Lines 113-118: [while (true)], one unit of fuel per iteration. *)
Fixpoint reshuffle (fuel : nat) : M State (option MapT) :=
  match fuel with
  | O => out_of_fuel
  | S fuel' =>
      shuffle_playlist ;;
      ok ← gets (fun s => allNonConsecutive (mapsPlaylist s));
      if (ok : bool) then shift else reshuffle fuel'
  end.

(** [getNextMap] for a given frequency table. *)
Definition getNextMap_with (frequency : gmap string Z) (fuel : nat)
    : M State (option MapT) :=
  n ← gets (fun s => length (mapsPlaylist s));
  if bool_decide (0 < n) then shift
  else fill_playlist frequency ;; reshuffle fuel.

(** The table of lines 92-102. *)
Definition frequency : gmap string Z :=
  list_to_map
    [("World", 4%Z); ("Europe", 4%Z); ("Mena", 2%Z); ("NorthAmerica", 2%Z);
     ("Oceania", 1%Z); ("BlackSea", 2%Z); ("Africa", 2%Z); ("Asia", 2%Z);
     ("Mars", 0%Z)].

Definition getNextMap (fuel : nat) : M State (option MapT) :=
  getNextMap_with frequency fuel.

(** Successive calls of [getNextMap], with the values they return. *)
Fixpoint nextMaps (frequency : gmap string Z) (fuel n : nat)
    : M State (list (option MapT)) :=
  match n with
  | O => mret []
  | S n' =>
      m ← getNextMap_with frequency fuel;
      ms ← nextMaps frequency fuel n';
      mret (m :: ms)
  end.

(** *** Lines 131-166: [tick] *)

(** Lines 136-151.  [now] is the value of [Date.now()] and [newID] the
    one of [generateID()]. *)
Definition tick_create (frequency : gmap string Z) (fuel : nat) (now : Z)
    (newID : GameID) (lobbies : list loc) : M State (list loc) :=
  last ← gets lastNewLobby;
  rate ← gets (fun s => gameCreationRate (config s));
  if bool_decide (last + rate < now)%Z then
    modify (set_lastNewLobby now) ;;
    m ← getNextMap_with frequency fuel;
    g ← new_GameServer newID now true
          (mkGameConfig m Public Medium false false false false 1000);
    mret (lobbies ++ [g])
  else mret lobbies.

(** Lines 153-157 *)
Definition tick_start (active : list loc) : M State unit :=
  l ← filter_games (fun g => negb (gs_hasStarted g) && gs_isPublic g) active;
  forEach l (invoke "start" gs_start).

(** Lines 158-164 *)
Definition tick_end (finished : list loc) : M State unit :=
  forEach finished (fun g =>
    try_catch (invoke "endGame" gs_endGame g)
      (fun error =>
         with_game g (fun o =>
           emit (ConsoleLog ("error ending game " +:+ gs_id o +:+ ": ")
                   (Some error))))).

Definition tick_with (frequency : gmap string Z) (fuel : nat) (now : Z)
    (newID : GameID) : M State unit :=
  lobbies ← gamesByPhase Lobby;
  active ← gamesByPhase Active;
  finished ← gamesByPhase Finished;
  lobbies' ← tick_create frequency fuel now newID lobbies;
  tick_start active ;;
  tick_end finished ;;
  modify (set_games (lobbies' ++ active)).

Definition tick (fuel : nat) (now : Z) (newID : GameID) : M State unit :=
  tick_with frequency fuel now newID.

(** *** Vocabulary of the properties *)

(** The state after [k] shuffles of the playlist. *)
Fixpoint attempts (k : nat) (s : State) : State :=
  match k with
  | O => s
  | S k' => attempts k' (shuffled s)
  end.

(** No two neighbours of [q] are the same. *)
Definition NonConsecutive (q : list MapT) : Prop :=
  forall i x y, q !! i = Some x -> q !! S i = Some y -> x <> y.

(** How often the table asks for [key]. *)
Definition weight (frequency : gmap string Z) (key : string) : nat :=
  match frequency !! key with
  | Some count => Z.to_nat count
  | None => 0
  end.

(** The list the refill builds before it shuffles. *)
Definition working_list (frequency : gmap string Z) : list MapT :=
  GameMapType_keys ≫= (fun key => replicate (weight frequency key) (GameMapType_get key)).

Definition occurrences (m : MapT) (q : list MapT) : nat :=
  length (filter (fun x => x = m) q).

(** The receivers of the calls of [method] recorded in a trace. *)
Definition invocations (method : string) (t : list Event) : list loc :=
  omap (fun e => match e with
                 | Invoke n g => if decide (n = method) then Some g else None
                 | _ => None
                 end) t.

(** The three buckets [tick] computes first. *)
Definition bucket (phase : GamePhase) (s : State) : list loc :=
  filter (fun g => test (fun o => bool_decide (gs_phase o = phase)) s g = true) (games s).

(** [s'] differs from [s] at most in the objects of [l], whose number
    stays, and in a longer trace. *)
Definition touches (l : list loc) (s s' : State) : Prop :=
  exists h evs,
    s' = set_trace (trace s ++ evs) (set_heap h s) /\
    length h = length (heap s) /\
    forall g, g ∉ l -> h !! g = heap s !! g.

(** The sessions [tick] starts. *)
Definition startable (s : State) : list loc :=
  filter (fun g => test (fun o => negb (gs_hasStarted o) && gs_isPublic o) s g = true)
    (bucket Active s).

End GameManager.

Arguments State : clear implicits.

(** ** A concrete instance of the collaborators

    Used to run the manager on concrete inputs. *)

Module Model.

(** The [GameMapType] enum ([core/game/Game.ts] is not among the
    sources), taken as the string enum whose keys are those of the
    frequency table of [getNextMap]. *)
#[global] Instance GameMapType : GameMapTypeEnum string := {|
  GameMapType_keys :=
    ["World"; "Europe"; "Mena"; "NorthAmerica"; "Oceania"; "BlackSea";
     "Africa"; "Asia"; "Mars"];
  GameMapType_get := fun key => key
|}.

(** Modelled from the spec: the Deterministic Shuffle Source
    ([core/PseudoRandom.ts] is not among the sources).  A seeded
    generator, here a linear congruential one, and a shuffle that draws
    the elements one by one, which is Fisher and Yates' method. *)
Definition next (seed : Z) : Z := ((1103515245 * seed + 12345) mod 2147483648)%Z.

Fixpoint draw {A} (n : nat) (seed : Z) (l acc : list A) : Z * list A :=
  match n with
  | O => (seed, acc ++ l)
  | S n' =>
      let seed' := next seed in
      let i := Z.to_nat (seed' mod Z.of_nat (length l)) in
      match l !! i with
      | Some x => draw n' seed' (delete i l) (acc ++ [x])
      | None => (seed', acc ++ l)
      end
  end.

#[global] Instance PseudoRandom : PseudoRandomClass Z := {|
  PseudoRandom_new := fun seed => seed;
  shuffleArray := fun A seed l => draw (length l) seed l []
|}.

(** Modelled from the spec: the Session entity ([GameServer.ts] is not
    among the sources), with the attributes of the spec's data model:
    identifier, creation time, visibility, configuration, phase,
    started-flag and roster.  What its simulation layer does in
    [start()] and [endGame()] is outside the spec; [s_startError] and
    [s_endError] say whether these calls fail. *)
Record Session := mkSession {
  s_id : GameID;
  s_createdAt : Z;
  s_isPublic : bool;
  s_config : GameConfig string;
  s_phase : GamePhase;
  s_started : bool;
  s_clients : list (string * Z);
  s_startError : option Error;
  s_endError : option Error
}.

Definition Session_start (g : Session) : Session * option Error :=
  match s_startError g with
  | Some e => (g, Some e)
  | None =>
      (mkSession (s_id g) (s_createdAt g) (s_isPublic g) (s_config g)
         (match s_phase g with Lobby => Active | ph => ph end) true
         (s_clients g) (s_startError g) (s_endError g), None)
  end.

Definition Session_endGame (g : Session) : Session * option Error :=
  (g, s_endError g).

Definition Session_addClient (client : string) (lastTurn : Z) (g : Session)
    : Session * option Error :=
  match s_phase g with
  | Finished => (g, None)
  | _ =>
      (mkSession (s_id g) (s_createdAt g) (s_isPublic g) (s_config g)
         (s_phase g) (s_started g) (s_clients g ++ [(client, lastTurn)])
         (s_startError g) (s_endError g), None)
  end.

Definition Session_updateGameConfig (c : GameConfig string) (g : Session)
    : Session * option Error :=
  (mkSession (s_id g) (s_createdAt g) (s_isPublic g) c (s_phase g)
     (s_started g) (s_clients g) (s_startError g) (s_endError g), None).

#[global] Instance GameServer : GameServerClass string string Session := {|
  GameServer_new := fun id createdAt isPublic _ c =>
    mkSession id createdAt isPublic c Lobby false [] None None;
  gs_id := s_id;
  gs_isPublic := s_isPublic;
  gs_phase := s_phase;
  gs_hasStarted := s_started;
  gs_start := Session_start;
  gs_endGame := Session_endGame;
  gs_addClient := Session_addClient;
  gs_updateGameConfig := Session_updateGameConfig
|}.

Definition defaults : GameConfig string :=
  mkGameConfig (Some "World") Public Medium false false false false 1000.

(** A session as a test would set it up. *)
Definition session (id : GameID) (isPublic : bool) (phase : GamePhase)
    (started : bool) (startError endError : option Error) : Session :=
  mkSession id 0 isPublic defaults phase started [] startError endError.

(** A manager whose [games] are the objects of [objs], in order. *)
Definition manager (rate last : Z) (objs : list Session)
    : State string Session Z :=
  mkState (mkServerConfig rate) last [] (seq 0 (length objs))
    (PseudoRandom_new 123) objs [].

Definition empty_manager : State string Session Z := manager 1000 0 [].

(** A table with one identifier, asked for twice. *)
Definition single_table : gmap string Z := {[ "World" := 2%Z ]}.

(** A table with two identifiers. *)
Definition two_table : gmap string Z := {[ "World" := 1%Z; "Europe" := 1%Z ]}.

Definition two_table_refilled : State string Session Z :=
  Eval vm_compute in
    match getNextMap_with two_table 5 empty_manager with
    | Returns _ s => s
    | _ => empty_manager
    end.

Definition refilled : State string Session Z :=
  Eval vm_compute in
    match getNextMap 50 empty_manager with
    | Returns _ s => s
    | _ => empty_manager
    end.

Definition first_tick : State string Session Z :=
  Eval vm_compute in
    match tick 50 5000 "g1" empty_manager with
    | Returns _ s => s
    | _ => empty_manager
    end.

(** Three finished sessions, the second of which fails to end, an
    active one and a lobby. *)
Definition three_finished : State string Session Z :=
  manager 1000 0
    [session "f1" true Finished true None None;
     session "f2" true Finished true None (Some "notify failed");
     session "f3" false Finished true None None;
     session "a" true Active false None None;
     session "l" true Lobby false None None].

Definition three_finished_started : State string Session Z :=
  Eval vm_compute in
    match tick_start (bucket Active three_finished) three_finished with
    | Returns _ s => s
    | _ => three_finished
    end.

(** An active public session whose [start] throws, and a finished one. *)
Definition failing_start : State string Session Z :=
  manager 1000 0
    [session "a" true Active false (Some "start failed") None;
     session "f" true Finished true None None].

(** Active sessions: public, private, and public but started. *)
Definition active_sessions : State string Session Z :=
  manager 1000 0
    [session "a" true Active false None None;
     session "b" false Active false None None;
     session "c" true Active true None None;
     session "l" true Lobby false None None].

(** A public lobby and private sessions in each phase. *)
Definition mixed_sessions : State string Session Z :=
  manager 1000 0
    [session "pub" true Lobby false None None;
     session "p1" false Lobby false None None;
     session "p2" false Active true None None;
     session "p3" false Finished true None None].

Definition new_config : GameConfig string :=
  mkGameConfig (Some "Mars") Private Medium true true true true 5.

(** A table that asks for no map. *)
Definition empty_table : gmap string Z := {[ "Mars" := 0%Z ]}.

Definition three_finished_after : State string Session Z :=
  Eval vm_compute in
    match tick 0 0 "n" three_finished with
    | Returns _ s => s
    | _ => three_finished
    end.

(** [failing_start] after a tick in which a lobby was due. *)
Definition failing_start_after : State string Session Z :=
  Eval vm_compute in
    match tick 50 5000 "n" failing_start with
    | Throws _ s => s
    | _ => failing_start
    end.

Definition second_tick : State string Session Z :=
  Eval vm_compute in
    match tick 50 7000 "g2" first_tick with
    | Returns _ s => s
    | _ => first_tick
    end.

(** A started active session before a lobby. *)
Definition quiet_sessions : State string Session Z :=
  manager 1000 0
    [session "a" true Active true None None;
     session "l" true Lobby false None None].

(** An active public session whose [start] throws, before three finished
    sessions. *)
Definition failing_start_three_finished : State string Session Z :=
  manager 1000 0
    [session "a" true Active false (Some "start failed") None;
     session "f1" true Finished true None None;
     session "f2" true Finished true None (Some "notify failed");
     session "f3" false Finished true None None].

(** Two active public sessions that are not started; the [start] of the
    first one throws. *)
Definition two_startable : State string Session Z :=
  manager 1000 0
    [session "a" true Active false (Some "start failed") None;
     session "b" true Active false None None].

End Model.

(** ** Properties of the playlist *)

Section Playlist.
Context {MapT Client GS R : Type}.
Context `{!GameMapTypeEnum MapT, !PseudoRandomClass R,
          !GameServerClass MapT Client GS}.
Implicit Types (s : State MapT GS R) (frequency : gmap string Z).
Implicit Types (q maps : list MapT).

Lemma allNonConsecutive_from_true n i maps :
  allNonConsecutive_from n i maps = true <->
  forall j, i <= j < i + n -> maps !! j <> maps !! S j.
Proof.
  revert i. induction n as [|n IH]; intros i; simpl.
  - split; [intros _ j Hj; lia | done].
  - destruct (decide (maps !! i = maps !! S i)) as [Heq|Hne].
    + split; [done|]. intros H. exfalso. apply (H i); [lia | done].
    + rewrite IH. split; intros H j Hj.
      * destruct (decide (j = i)) as [->|]; [done|]. apply H. lia.
      * apply H. lia.
Qed.

Lemma allNonConsecutive_spec maps :
  allNonConsecutive maps = true <-> NonConsecutive maps.
Proof.
  unfold allNonConsecutive, NonConsecutive.
  rewrite allNonConsecutive_from_true. split.
  - intros H i x y Hx Hy ->.
    apply (H i); [|congruence].
    apply lookup_lt_Some in Hy. lia.
  - intros H j Hj Heq.
    destruct (lookup_lt_is_Some_2 maps (S j)) as [y Hy]; [lia|].
    destruct (lookup_lt_is_Some_2 maps j) as [x Hx]; [lia|].
    apply (H j x y); [done..|]. congruence.
Qed.

Lemma shift_returns s : exists v s', shift s = Returns v s'.
Proof. unfold shift. destruct (mapsPlaylist s); eauto. Qed.

Lemma reshuffle_S fuel s :
  reshuffle (S fuel) s =
  if allNonConsecutive (mapsPlaylist (shuffled s)) then shift (shuffled s)
  else reshuffle fuel (shuffled s).
Proof.
  cbn [reshuffle]. unfold mbind, M_bind, shuffle_playlist, modify, gets.
  by destruct (allNonConsecutive (mapsPlaylist (shuffled s))).
Qed.

Lemma reshuffle_out_of_fuel fuel s :
  reshuffle fuel s = OutOfFuel <->
  forall k, k < fuel -> allNonConsecutive (mapsPlaylist (attempts (S k) s)) = false.
Proof.
  revert s. induction fuel as [|fuel IH]; intros s.
  - split; [intros _ k Hk; lia | done].
  - rewrite reshuffle_S.
    destruct (allNonConsecutive (mapsPlaylist (shuffled s))) eqn:Hok.
    + split.
      * destruct (shift_returns (shuffled s)) as (v & s' & ->). done.
      * intros H. specialize (H 0 ltac:(lia)). cbn [attempts] in H. congruence.
    + rewrite IH. split; intros H k Hk.
      * destruct k as [|k]; [done|]. apply (H k). lia.
      * apply (H (S k)). lia.
Qed.

Lemma reshuffle_returns fuel s v s' :
  reshuffle fuel s = Returns v s' <->
  exists k, k < fuel /\
    (forall j, j < k -> allNonConsecutive (mapsPlaylist (attempts (S j) s)) = false) /\
    allNonConsecutive (mapsPlaylist (attempts (S k) s)) = true /\
    shift (attempts (S k) s) = Returns v s'.
Proof.
  revert s. induction fuel as [|fuel IH]; intros s.
  - split; [done | intros (k & Hk & _); lia].
  - rewrite reshuffle_S.
    destruct (allNonConsecutive (mapsPlaylist (shuffled s))) eqn:Hok.
    + split.
      * intros H. exists 0. repeat split; [lia | intros; lia | done | done].
      * intros (k & Hk & Hlt & Hk' & Hs). destruct k as [|k]; [done|].
        specialize (Hlt 0 ltac:(lia)). cbn [attempts] in Hlt. congruence.
    + rewrite IH. split.
      * intros (k & Hk & Hlt & Hk' & Hs). exists (S k).
        repeat split; [lia | | done | done].
        intros j Hj. destruct j as [|j]; [done|]. apply (Hlt j). lia.
      * intros (k & Hk & Hlt & Hk' & Hs).
        destruct k as [|k]; [cbn [attempts] in Hk'; congruence|].
        exists k. repeat split; [lia | | done | done].
        intros j Hj. apply (Hlt (S j)). lia.
Qed.

Lemma reshuffle_not_throws fuel s e s' : reshuffle fuel s <> Throws e s'.
Proof.
  revert s. induction fuel as [|fuel IH]; intros s; [done|].
  rewrite reshuffle_S.
  destruct (allNonConsecutive (mapsPlaylist (shuffled s))); [|done].
  destruct (shift_returns (shuffled s)) as (v & s1 & ->). done.
Qed.

(** C3, as the code has it.  The rebuild of the playlist (lines 113-118)
    has no bound on its attempts and no fallback: given fuel for [fuel]
    attempts it is still running exactly when none of the first [fuel]
    shuffles is free of equal neighbours, and it returns exactly at the
    first shuffle that is, with the head of that arrangement. *)
Theorem reshuffle_until_non_consecutive fuel s :
  (reshuffle fuel s = OutOfFuel <->
   forall k, k < fuel ->
     allNonConsecutive (mapsPlaylist (attempts (S k) s)) = false) /\
  (forall v s', reshuffle fuel s = Returns v s' <->
   exists k, k < fuel /\
     (forall j, j < k ->
        allNonConsecutive (mapsPlaylist (attempts (S j) s)) = false) /\
     allNonConsecutive (mapsPlaylist (attempts (S k) s)) = true /\
     shift (attempts (S k) s) = Returns v s').
Proof.
  split; [apply reshuffle_out_of_fuel | intros; apply reshuffle_returns].
Qed.

(** *** What the refill builds *)

Lemma push_while_replicate count m q :
  push_while count m q = q ++ replicate count m.
Proof.
  revert q. induction count as [|count IH]; intros q; simpl.
  - by rewrite app_nil_r.
  - rewrite IH, <- app_assoc. done.
Qed.

Lemma push_key_weight frequency q key :
  push_key frequency q key = q ++ replicate (weight frequency key) (GameMapType_get key).
Proof.
  unfold push_key, parseInt, weight. destruct (frequency !! key).
  - apply push_while_replicate.
  - by rewrite app_nil_r.
Qed.

Lemma foldl_push_key frequency q keys :
  foldl (push_key frequency) q keys =
  q ++ (keys ≫= fun key => replicate (weight frequency key) (GameMapType_get key)).
Proof.
  revert q. induction keys as [|key keys IH]; intros q; simpl.
  - by rewrite app_nil_r.
  - rewrite IH, push_key_weight, <- app_assoc. done.
Qed.

Lemma getNextMap_refill frequency fuel s :
  mapsPlaylist s = [] ->
  getNextMap_with frequency fuel s =
  reshuffle fuel (set_mapsPlaylist (working_list frequency) s).
Proof.
  intros Hq. unfold getNextMap_with, mbind, M_bind, gets, fill_playlist, modify.
  rewrite Hq. cbn [length]. rewrite bool_decide_false by lia. cbv beta.
  rewrite foldl_push_key, Hq. done.
Qed.

Lemma getNextMap_shift frequency fuel s :
  mapsPlaylist s <> [] -> getNextMap_with frequency fuel s = shift s.
Proof.
  intros Hq. unfold getNextMap_with, mbind, M_bind, gets.
  destruct (mapsPlaylist s) eqn:E; [done|]. done.
Qed.

Lemma set_mapsPlaylist_twice q q' s :
  set_mapsPlaylist q (set_mapsPlaylist q' s) = set_mapsPlaylist q s.
Proof. done. Qed.

(** With a queue [q], the next [length q] calls return [q] and empty it. *)
Lemma nextMaps_drain frequency fuel q s :
  mapsPlaylist s = q ->
  nextMaps frequency fuel (length q) s = Returns (Some <$> q) (set_mapsPlaylist [] s).
Proof.
  revert s. induction q as [|m q IH]; intros s Hq.
  - simpl. unfold mret, M_ret. f_equal. destruct s; simpl in *; by subst.
  - cbn [length nextMaps]. unfold mbind, M_bind at 1.
    rewrite getNextMap_shift by (rewrite Hq; done).
    unfold shift. rewrite Hq.
    unfold mbind, M_bind. rewrite (IH (set_mapsPlaylist q s)) by done.
    done.
Qed.

(** [getNextMap] changes the playlist and the generator, nothing else,
    and it does not throw. *)
Lemma attempts_frame k s :
  exists q r, attempts k s = set_mapsPlaylist q (set_random r s).
Proof.
  revert s. induction k as [|k IH]; intros s.
  - exists (mapsPlaylist s), (random s). by destruct s.
  - cbn [attempts]. destruct (IH (shuffled s)) as (q & r & ->). by exists q, r.
Qed.

Lemma shift_frame s v s' :
  shift s = Returns v s' -> exists q, s' = set_mapsPlaylist q s.
Proof.
  unfold shift. destruct (mapsPlaylist s) as [|m q] eqn:Hq; intros [= <- <-].
  - exists []. rewrite <- Hq. by destruct s.
  - by exists q.
Qed.

Lemma getNextMap_frame frequency fuel s v s' :
  getNextMap_with frequency fuel s = Returns v s' ->
  exists q r, s' = set_mapsPlaylist q (set_random r s).
Proof.
  destruct (mapsPlaylist s) as [|m q0] eqn:Hq.
  - rewrite getNextMap_refill by done.
    intros (k & _ & _ & _ & Hshift)%reshuffle_returns.
    apply shift_frame in Hshift as (q & ->).
    destruct (attempts_frame (S k) (set_mapsPlaylist (working_list frequency) s))
      as (q' & r & ->).
    by exists q, r.
  - rewrite getNextMap_shift by (by rewrite Hq).
    intros (q & ->)%shift_frame. exists q, (random s). by destruct s.
Qed.

Lemma getNextMap_not_throws frequency fuel s e s' :
  getNextMap_with frequency fuel s <> Throws e s'.
Proof.
  destruct (mapsPlaylist s) as [|m q0] eqn:Hq.
  - rewrite getNextMap_refill by done. apply reshuffle_not_throws.
  - rewrite getNextMap_shift by (by rewrite Hq).
    destruct (shift_returns s) as (v & s1 & ->). done.
Qed.

(** *** Counting identifiers *)

Lemma occurrences_app m q1 q2 :
  occurrences m (q1 ++ q2) = occurrences m q1 + occurrences m q2.
Proof. unfold occurrences. by rewrite filter_app, length_app. Qed.

Lemma occurrences_replicate m m' n :
  occurrences m (replicate n m') = if decide (m' = m) then n else 0.
Proof.
  unfold occurrences. induction n as [|n IH]; simpl.
  - by destruct (decide (m' = m)).
  - rewrite filter_cons. destruct (decide (m' = m)); simpl; by rewrite IH.
Qed.

Lemma occurrences_Permutation m q1 q2 :
  q1 ≡ₚ q2 -> occurrences m q1 = occurrences m q2.
Proof. unfold occurrences. by intros ->. Qed.

Lemma occurrences_bind frequency (keys : list string) key :
  NoDup keys ->
  (forall key', key' ∈ keys -> GameMapType_get key' = GameMapType_get key -> key' = key) ->
  occurrences (GameMapType_get key)
    (keys ≫= fun k => replicate (weight frequency k) (GameMapType_get k)) =
  if decide (key ∈ keys) then weight frequency key else 0.
Proof.
  induction keys as [|a keys IH]; intros Hnd Hinj.
  - by rewrite decide_False by apply not_elem_of_nil.
  - apply NoDup_cons in Hnd as [Ha Hnd].
    rewrite bind_cons, occurrences_app, occurrences_replicate, IH; [|done|].
    2:{ intros k' Hk'. apply Hinj. by right. }
    destruct (decide (GameMapType_get a = GameMapType_get key)) as [Heq|Hne].
    + apply Hinj in Heq as ->; [|by left].
      rewrite (decide_False (P := key ∈ keys)) by done.
      rewrite decide_True by (by left). lia.
    + destruct (decide (key ∈ keys)) as [Hin|Hout].
      * rewrite decide_True by (by right). done.
      * rewrite decide_False; [done|].
        intros [->|?]%elem_of_cons; done.
Qed.

Lemma two_elements_length {A} (l : list A) x y :
  x ∈ l -> y ∈ l -> x <> y -> 2 <= length l.
Proof.
  destruct l as [|a [|b l]]; simpl; intros Hx Hy Hne; [|exfalso|lia].
  - by apply elem_of_nil in Hx.
  - apply list_elem_of_singleton in Hx, Hy. congruence.
Qed.

Lemma working_list_elem frequency m :
  m ∈ working_list frequency <->
  exists key, key ∈ GameMapType_keys /\ m = GameMapType_get key /\
              0 < weight frequency key.
Proof.
  unfold working_list. rewrite list_elem_of_bind. split.
  - intros (key & Hm & Hkey). apply elem_of_replicate in Hm as [-> Hw].
    exists key. repeat split; [done|lia].
  - intros (key & Hkey & -> & Hw). exists key. split; [|done].
    apply elem_of_replicate. split; [done|lia].
Qed.

(** *** Further properties of the playlist *)

Lemma allNonConsecutive_from_false n i maps :
  allNonConsecutive_from n i maps = false <->
  exists j, i <= j < i + n /\ maps !! j = maps !! S j.
Proof.
  revert i. induction n as [|n IH]; intros i; simpl.
  - split; [done | intros (j & Hj & _); lia].
  - destruct (decide (maps !! i = maps !! S i)) as [Heq|Hne].
    + split; [|done]. intros _. exists i. split; [lia | done].
    + rewrite IH. split; intros (j & Hj & Heq).
      * exists j. split; [lia | done].
      * exists j. split; [|done].
        destruct (decide (j = i)) as [->|]; [done | lia].
Qed.

(** X1.  [allNonConsecutive] answers [true] exactly for the arrays in
    which no entry equals its successor, and [false] exactly when some
    index [i] has [maps[i] === maps[i + 1]]; the empty array and the
    arrays of one entry pass. *)
Theorem allNonConsecutive_correct maps :
  (allNonConsecutive maps = true <-> NonConsecutive maps) /\
  (allNonConsecutive maps = false <->
   exists i m, maps !! i = Some m /\ maps !! S i = Some m) /\
  (length maps <= 1 -> allNonConsecutive maps = true).
Proof.
  split; [apply allNonConsecutive_spec|]. split.
  - unfold allNonConsecutive. rewrite allNonConsecutive_from_false. split.
    + intros (j & Hj & Heq).
      destruct (lookup_lt_is_Some_2 maps j) as [m Hm]; [lia|].
      exists j, m. split; [done | congruence].
    + intros (i & m & Hi & HSi). exists i. split; [|congruence].
      apply lookup_lt_Some in HSi. lia.
  - intros Hlen. apply allNonConsecutive_spec. intros i x y Hx Hy.
    apply lookup_lt_Some in Hy. lia.
Qed.

Lemma nextMaps_take frequency fuel n q s :
  mapsPlaylist s = q ->
  n <= length q ->
  nextMaps frequency fuel n s =
  Returns (Some <$> take n q) (set_mapsPlaylist (drop n q) s).
Proof.
  revert q s. induction n as [|n IH]; intros q s Hq Hn.
  - simpl. unfold mret, M_ret. f_equal. rewrite drop_0, <- Hq. by destruct s.
  - destruct q as [|m q]; [simpl in Hn; lia|].
    cbn [nextMaps]. unfold mbind, M_bind at 1.
    rewrite getNextMap_shift by (by rewrite Hq).
    unfold shift. rewrite Hq. unfold mbind, M_bind.
    rewrite (IH q (set_mapsPlaylist q s)) by (done || simpl in Hn; lia).
    done.
Qed.

(** X2.  While the queue holds enough entries, [n] calls of [getNextMap]
    return its first [n] entries in order and leave the rest; they do not
    shuffle, whatever the table is. *)
Theorem nextMaps_fifo frequency fuel n s :
  n <= length (mapsPlaylist s) ->
  nextMaps frequency fuel n s =
  Returns (Some <$> take n (mapsPlaylist s))
    (set_mapsPlaylist (drop n (mapsPlaylist s)) s).
Proof. by apply nextMaps_take. Qed.

(** X3.  [getNextMap] never throws, and when it returns it has changed
    nothing but the playlist and the generator; on a queue that is not
    empty it leaves the generator alone as well. *)
Theorem getNextMap_changes_only_playlist frequency fuel s :
  (forall e s', getNextMap_with frequency fuel s <> Throws e s') /\
  (forall v s', getNextMap_with frequency fuel s = Returns v s' ->
     config s' = config s /\ lastNewLobby s' = lastNewLobby s /\
     games s' = games s /\ heap s' = heap s /\ trace s' = trace s /\
     (mapsPlaylist s <> [] -> random s' = random s)).
Proof.
  split; [intros e s'; apply getNextMap_not_throws|].
  intros v s' Hret.
  destruct (getNextMap_frame _ _ _ _ _ Hret) as (q & r & ->).
  repeat split. intros Hq. rewrite getNextMap_shift in Hret by done.
  apply shift_frame in Hret as (q' & Heq).
  apply (f_equal random) in Heq. done.
Qed.

Section Shuffle.
(** The contract of the shuffle source: it permutes the array. *)
Hypothesis shuffleArray_permutes :
  forall (r : R) (l : list MapT), (shuffleArray r l).2 ≡ₚ l.

Lemma attempts_permutes k s : mapsPlaylist (attempts k s) ≡ₚ mapsPlaylist s.
Proof using shuffleArray_permutes.
  revert s. induction k as [|k IH]; intros s; [done|].
  cbn [attempts]. rewrite IH. unfold shuffled. simpl.
  apply shuffleArray_permutes.
Qed.

(** A queue of two or more copies of one identifier is never accepted. *)
Lemma reshuffle_single_identifier fuel s n m :
  mapsPlaylist s = replicate (S (S n)) m -> reshuffle fuel s = OutOfFuel.
Proof using shuffleArray_permutes.
  intros Hq. apply reshuffle_out_of_fuel. intros k _.
  pose proof (attempts_permutes (S k) s) as Hp. rewrite Hq in Hp.
  symmetry in Hp. apply replicate_Permutation in Hp. rewrite <- Hp.
  unfold allNonConsecutive. simpl. by rewrite decide_True.
Qed.

(** One refill cycle: the call that refills an empty queue installs
    a queue [q], returns its head, and the calls up to the
    [length q]-th return [q] and leave the queue empty again. *)
Lemma refill_cycle frequency fuel s v s1 :
  mapsPlaylist s = [] ->
  getNextMap_with frequency fuel s = Returns v s1 ->
  exists q s',
    q ≡ₚ working_list frequency /\ NonConsecutive q /\
    v = head q /\ mapsPlaylist s1 = tail q /\
    nextMaps frequency fuel (length q) s = Returns (Some <$> q) s' /\
    mapsPlaylist s' = [].
Proof using shuffleArray_permutes.
  intros Hq Hret. pose proof Hret as Hret'.
  rewrite getNextMap_refill in Hret' by done.
  apply reshuffle_returns in Hret' as (k & _ & _ & Hok & Hshift).
  set (a := attempts (S k) (set_mapsPlaylist (working_list frequency) s)) in *.
  exists (mapsPlaylist a).
  assert (mapsPlaylist a ≡ₚ working_list frequency) as Hperm
    by apply (attempts_permutes (S k) (set_mapsPlaylist _ s)).
  apply allNonConsecutive_spec in Hok.
  unfold shift in Hshift. destruct (mapsPlaylist a) as [|m q] eqn:Ea.
  - injection Hshift as <- <-. exists s. by rewrite Ea.
  - injection Hshift as <- <-. exists (set_mapsPlaylist [] (set_mapsPlaylist q a)).
    repeat split; try done.
    cbn [length nextMaps]. unfold mbind, M_bind at 1. rewrite Hret.
    unfold mbind, M_bind.
    rewrite (nextMaps_drain frequency fuel q (set_mapsPlaylist q a)) by done.
    done.
Qed.

(** C4.  For a table with at least two identifiers of positive weight,
    the identifiers that successive calls of [getNextMap] return over
    one refill cycle, from an empty queue until the queue is empty
    again, are as many as the table asks for, at least two, and no two
    consecutive ones are the same. *)
Theorem playlist_cycle_non_consecutive frequency fuel s v s1 :
  (exists key1 key2 w1 w2,
      key1 ∈ GameMapType_keys /\ key2 ∈ GameMapType_keys /\
      GameMapType_get key1 <> GameMapType_get key2 /\
      frequency !! key1 = Some w1 /\ frequency !! key2 = Some w2 /\
      (0 < w1)%Z /\ (0 < w2)%Z) ->
  mapsPlaylist s = [] ->
  getNextMap_with frequency fuel s = Returns v s1 ->
  exists q s',
    nextMaps frequency fuel (length q) s = Returns (Some <$> q) s' /\
    mapsPlaylist s' = [] /\
    length q = length (working_list frequency) /\
    2 <= length q /\
    NonConsecutive q.
Proof using shuffleArray_permutes.
  intros (key1 & key2 & w1 & w2 & Hk1 & Hk2 & Hne & Hw1 & Hw2 & Hp1 & Hp2) Hq Hret.
  destruct (refill_cycle frequency fuel s v s1 Hq Hret)
    as (q & s' & Hperm & Hnc & _ & _ & Hcalls & Hempty).
  exists q, s'. repeat split; try done.
  - by rewrite Hperm.
  - rewrite Hperm.
    apply (two_elements_length _ (GameMapType_get key1) (GameMapType_get key2));
      [| |done]; apply working_list_elem.
    + exists key1. unfold weight. rewrite Hw1. repeat split; [done|lia].
    + exists key2. unfold weight. rewrite Hw2. repeat split; [done|lia].
Qed.

(** C5, as the code has it.  When the call of [getNextMap] that refills
    the empty queue returns, the calls of that refill cycle return a
    permutation of the list the table defines: every key of the enum
    has its identifier returned exactly as often as its weight says,
    and nothing is returned that is not the identifier of a key of
    positive weight. *)
Theorem playlist_cycle_matches_table frequency fuel s v s1 :
  NoDup GameMapType_keys ->
  (forall key1 key2, key1 ∈ GameMapType_keys -> key2 ∈ GameMapType_keys ->
     GameMapType_get key1 = GameMapType_get key2 -> key1 = key2) ->
  mapsPlaylist s = [] ->
  getNextMap_with frequency fuel s = Returns v s1 ->
  exists q s',
    nextMaps frequency fuel (length q) s = Returns (Some <$> q) s' /\
    mapsPlaylist s' = [] /\
    v = head q /\
    q ≡ₚ working_list frequency /\
    (forall key, key ∈ GameMapType_keys ->
       occurrences (GameMapType_get key) q = weight frequency key) /\
    (forall m, m ∈ q ->
       exists key, key ∈ GameMapType_keys /\ m = GameMapType_get key /\
                   0 < weight frequency key).
Proof using shuffleArray_permutes.
  intros Hnd Hinj Hq Hret.
  destruct (refill_cycle frequency fuel s v s1 Hq Hret)
    as (q & s' & Hperm & _ & Hv & _ & Hcalls & Hempty).
  exists q, s'. repeat split; try done.
  - intros key Hkey. rewrite (occurrences_Permutation _ _ _ Hperm).
    unfold working_list. rewrite occurrences_bind; [|done|].
    + by rewrite decide_True.
    + intros key' Hkey'. by apply Hinj.
  - intros m Hm. apply working_list_elem. by rewrite <- Hperm.
Qed.

Lemma NoDup_NonConsecutive q : NoDup q -> NonConsecutive q.
Proof.
  intros Hnd i x y Hx Hy ->.
  pose proof (NoDup_lookup q i (S i) y Hnd Hx Hy). lia.
Qed.

(** X4.  With a table that gives no key of the enum a positive count the
    refill leaves the queue empty: the first shuffle is accepted and
    [getNextMap] returns [undefined]. *)
Theorem getNextMap_empty_table frequency fuel s :
  mapsPlaylist s = [] ->
  (forall key, key ∈ GameMapType_keys -> weight frequency key = 0) ->
  exists s',
    getNextMap_with frequency (S fuel) s = Returns None s' /\
    mapsPlaylist s' = [].
Proof using shuffleArray_permutes.
  intros Hq Hw.
  assert (working_list frequency = []) as Hwl.
  { destruct (working_list frequency) as [|m l] eqn:E; [done|].
    assert (m ∈ working_list frequency) as Hm by (rewrite E; by left).
    apply working_list_elem in Hm as (key & Hkey & _ & Hpos).
    rewrite Hw in Hpos by done. lia. }
  rewrite getNextMap_refill, Hwl, reshuffle_S by done.
  set (a := shuffled _).
  assert (mapsPlaylist a = []) as Ha.
  { apply Permutation_nil_r. unfold a, shuffled. simpl.
    apply shuffleArray_permutes. }
  rewrite Ha. change (allNonConsecutive (@nil MapT)) with true. cbv iota.
  unfold shift. rewrite Ha. by exists a.
Qed.

(** X5.  When the list built from the table has no identifier twice, the
    first shuffle is accepted: [getNextMap] returns after one call of
    [shuffleArray], with the head of a queue that is a permutation of
    that list. *)
Theorem getNextMap_distinct_one_shuffle frequency fuel s :
  mapsPlaylist s = [] ->
  NoDup (working_list frequency) ->
  exists q s',
    getNextMap_with frequency (S fuel) s = Returns (head q) s' /\
    q ≡ₚ working_list frequency /\
    mapsPlaylist s' = tail q /\
    random s' = (shuffleArray (random s) (working_list frequency)).1.
Proof using shuffleArray_permutes.
  intros Hq Hnd. rewrite getNextMap_refill, reshuffle_S by done.
  set (a := shuffled _).
  assert (mapsPlaylist a ≡ₚ working_list frequency) as Hperm.
  { unfold a, shuffled. simpl. apply shuffleArray_permutes. }
  assert (allNonConsecutive (mapsPlaylist a) = true) as ->.
  { apply allNonConsecutive_spec, NoDup_NonConsecutive. by rewrite Hperm. }
  exists (mapsPlaylist a). unfold shift.
  destruct (mapsPlaylist a) as [|m q] eqn:Ea.
  - exists a. by rewrite Ea.
  - by exists (set_mapsPlaylist q a).
Qed.

End Shuffle.

End Playlist.

(** ** Properties of the scheduler *)

Section Scheduler.
Context {MapT Client GS R : Type}.
Context `{!GameMapTypeEnum MapT, !PseudoRandomClass R,
          !GameServerClass MapT Client GS}.
Implicit Types (s : State MapT GS R) (frequency : gmap string Z).
Implicit Types (g : loc) (o : GS) (l : list loc).

(** *** The state record *)

Lemma State_eta s :
  s = mkState (config s) (lastNewLobby s) (mapsPlaylist s) (games s)
        (random s) (heap s) (trace s).
Proof. by destruct s. Qed.

Lemma touches_refl l s : touches l s s.
Proof.
  exists (heap s), []. rewrite app_nil_r. repeat split; [|done..].
  by destruct s.
Qed.

Lemma touches_trans l s1 s2 s3 :
  touches l s1 s2 -> touches l s2 s3 -> touches l s1 s3.
Proof.
  intros (h1 & e1 & -> & Hl1 & Hh1) (h2 & e2 & -> & Hl2 & Hh2). simpl in *.
  exists h2, (e1 ++ e2). rewrite app_assoc. repeat split; [congruence|].
  intros g Hg. rewrite Hh2, Hh1; done.
Qed.

Lemma touches_mono l l' s s' : l ⊆ l' -> touches l s s' -> touches l' s s'.
Proof.
  intros Hsub (h & e & -> & Hl & Hh). exists h, e. repeat split; [done|].
  intros g Hg. apply Hh. intros Hin. by apply Hg, Hsub.
Qed.

(** *** Calls on one object *)

Lemma invoke_Some name method g s o :
  heap s !! g = Some o ->
  invoke name method g s =
  let s' := set_trace (trace s ++ [Invoke name g])
              (set_heap (<[g := (method o).1]> (heap s)) s) in
  match (method o).2 with
  | None => Returns tt s'
  | Some e => Throws e s'
  end.
Proof. intros Ho. unfold invoke. by rewrite Ho. Qed.

Lemma invoke_final name method g s :
  exists s', final (invoke name method g s) = Some s' /\ touches [g] s s'.
Proof.
  unfold invoke. destruct (heap s !! g) as [o|] eqn:Ho.
  - eexists. split; [by destruct ((method o).2)|].
    eexists _, _. split; [done|]. split; [by rewrite length_insert|].
    intros g' Hg'. apply list_lookup_insert_ne. set_solver.
  - eexists. split; [done | apply touches_refl].
Qed.

Lemma invoke_not_out_of_fuel name method g s :
  invoke name method g s <> OutOfFuel.
Proof.
  unfold invoke. destruct (heap s !! g); [|done].
  by destruct (_.2).
Qed.

(** *** [find] *)

Lemma find_id_None gameID s l :
  find_id gameID s l = None <->
  forall g o, g ∈ l -> heap s !! g = Some o -> gs_id o <> gameID.
Proof.
  induction l as [|a l IH]; simpl.
  - split; [|done]. intros _ g o Hg. by apply elem_of_nil in Hg.
  - unfold test at 1. destruct (heap s !! a) as [oa|] eqn:Ha.
    + case_bool_decide as Hid.
      * split; [done|]. intros H. exfalso. eapply H; [by left|done|done].
      * rewrite IH. split; intros H g o Hg Ho.
        -- apply elem_of_cons in Hg as [->|Hg]; [congruence | by eapply H].
        -- eapply H; [by right | done].
    + rewrite IH. split; intros H g o Hg Ho.
      * apply elem_of_cons in Hg as [->|Hg]; [congruence | by eapply H].
      * eapply H; [by right | done].
Qed.

Lemma find_id_Some gameID s l g :
  find_id gameID s l = Some g ->
  g ∈ l /\ exists o, heap s !! g = Some o /\ gs_id o = gameID.
Proof.
  induction l as [|a l IH]; simpl; [done|].
  unfold test at 1. destruct (heap s !! a) as [oa|] eqn:Ha.
  - case_bool_decide as Hid.
    + intros [= <-]. split; [by left | eauto].
    + intros [??]%IH. split; [by right | done].
  - intros [??]%IH. split; [by right | done].
Qed.

(** *** The buckets *)

Lemma test_true p s g :
  test p s g = true <-> exists o, heap s !! g = Some o /\ p o = true.
Proof.
  unfold test. destruct (heap s !! g) as [o|].
  - split; [eauto | by intros (? & [= <-] & ?)].
  - split; [done | by intros (? & ? & ?)].
Qed.

Lemma test_agree p s s' g :
  heap s' !! g = heap s !! g -> test p s' g = test p s g.
Proof. unfold test. by intros ->. Qed.

Lemma elem_of_bucket phase s g :
  g ∈ bucket phase s <->
  g ∈ games s /\ exists o, heap s !! g = Some o /\ gs_phase o = phase.
Proof.
  unfold bucket. rewrite list_elem_of_filter, test_true. split.
  - intros [(o & Ho & Hp) Hg]. apply bool_decide_eq_true in Hp. eauto.
  - intros [Hg (o & Ho & Hp)]. split; [|done].
    exists o. split; [done|]. by apply bool_decide_eq_true.
Qed.

Lemma bucket_allocated phase s g : g ∈ bucket phase s -> g < length (heap s).
Proof.
  intros (_ & o & Ho & _)%elem_of_bucket. by apply lookup_lt_Some in Ho.
Qed.

Lemma bucket_disjoint phase phase' s g :
  g ∈ bucket phase s -> g ∈ bucket phase' s -> phase = phase'.
Proof.
  intros (_ & o & Ho & <-)%elem_of_bucket (_ & o' & Ho' & <-)%elem_of_bucket.
  congruence.
Qed.

Lemma NoDup_bucket phase s : NoDup (games s) -> NoDup (bucket phase s).
Proof. apply NoDup_filter. Qed.

Lemma elem_of_startable s g :
  g ∈ startable s <->
  g ∈ games s /\
  exists o, heap s !! g = Some o /\ gs_phase o = Active /\
            gs_isPublic o = true /\ gs_hasStarted o = false.
Proof.
  unfold startable. rewrite list_elem_of_filter, test_true, elem_of_bucket. split.
  - intros [(o & Ho & Hp) (Hg & o' & Ho' & Hph)].
    assert (o' = o) as -> by congruence.
    apply andb_true_iff in Hp as [Hs%negb_true_iff Hpub]. eauto 10.
  - intros (Hg & o & Ho & Hph & Hpub & Hs). split; [|eauto].
    exists o. split; [done|]. by rewrite Hs, Hpub.
Qed.

Lemma startable_active s : startable s ⊆ bucket Active s.
Proof. intros g. unfold startable. rewrite list_elem_of_filter. tauto. Qed.

Lemma filter_test_agree p s s' l :
  (forall g, g ∈ l -> heap s' !! g = heap s !! g) ->
  filter (fun g => test p s' g = true) l = filter (fun g => test p s g = true) l.
Proof.
  induction l as [|a l IH]; intros Hl; [done|].
  rewrite !filter_cons, (test_agree p s s' a) by (apply Hl; by left).
  rewrite IH; [done|]. intros g Hg. apply Hl. by right.
Qed.

(** *** The two loops of [tick] *)

Lemma invocations_app name (t1 t2 : list Event) :
  invocations name (t1 ++ t2) = invocations name t1 ++ invocations name t2.
Proof. apply omap_app. Qed.

Lemma invocations_Invoke name name' l :
  invocations name (Invoke name' <$> l) = if decide (name' = name) then l else [].
Proof.
  unfold invocations. induction l as [|a l IH]; cbn [fmap list_fmap omap list_omap].
  - by destruct (decide (name' = name)).
  - rewrite IH. by destruct (decide (name' = name)).
Qed.

Lemma forEach_cons {A} (f : A -> M (State MapT GS R) unit) a (l : list A) s :
  forEach (a :: l) f s =
  match f a s with
  | Returns _ s' => forEach l f s'
  | Throws e s' => Throws e s'
  | OutOfFuel => OutOfFuel
  end.
Proof. done. Qed.

(** A loop of calls stops at the first call that throws. *)
Lemma forEach_invoke_final name method l s :
  (forall g, g ∈ l -> g < length (heap s)) ->
  exists k s',
    final (forEach l (invoke name method) s) = Some s' /\
    touches l s s' /\
    trace s' = trace s ++ (Invoke name <$> take k l) /\
    (forall s'', forEach l (invoke name method) s = Returns tt s'' -> take k l = l).
Proof.
  revert s. induction l as [|a l IH]; intros s Hl.
  - exists 0, s. simpl. rewrite app_nil_r. eauto using touches_refl.
  - destruct (lookup_lt_is_Some_2 (heap s) a) as [o Ho]; [apply Hl; by left|].
    rewrite forEach_cons, (invoke_Some _ _ _ _ _ Ho). cbv zeta.
    set (s1 := set_trace _ _).
    assert (touches (a :: l) s s1) as Ht1.
    { eexists _, _. split; [done|]. split; [by rewrite length_insert|].
      intros g Hg. apply list_lookup_insert_ne. set_solver. }
    destruct ((method o).2) as [e|].
    + exists 1, s1. repeat split; done.
    + destruct (IH s1) as (k & s' & Hfin & Ht & Htr & Hret).
      { intros g Hg. simpl. rewrite length_insert. apply Hl. by right. }
      exists (S k), s'. repeat split; [done| | |].
      * eapply touches_trans; [done|]. eapply touches_mono; [|done]. set_solver.
      * rewrite Htr. simpl. by rewrite <- app_assoc.
      * intros s'' Hs''. simpl. f_equal. by eapply Hret.
Qed.

(** On distinct objects whose calls do not throw, the loop calls them
    all. *)
Lemma forEach_invoke_returns name method l s :
  NoDup l ->
  (forall g, g ∈ l -> g < length (heap s)) ->
  (forall g o, g ∈ l -> heap s !! g = Some o -> (method o).2 = None) ->
  exists s',
    forEach l (invoke name method) s = Returns tt s' /\
    touches l s s' /\
    trace s' = trace s ++ (Invoke name <$> l) /\
    forall g o, g ∈ l -> heap s !! g = Some o -> heap s' !! g = Some (method o).1.
Proof.
  revert s. induction l as [|a l IH]; intros s Hnd Hl Hok.
  - exists s. simpl. rewrite app_nil_r.
    repeat split; try done; [apply touches_refl|].
    intros g o Hg. by apply elem_of_nil in Hg.
  - apply NoDup_cons in Hnd as [Ha Hnd].
    destruct (lookup_lt_is_Some_2 (heap s) a) as [o Ho]; [apply Hl; by left|].
    rewrite forEach_cons, (invoke_Some _ _ _ _ _ Ho). cbv zeta.
    rewrite (Hok a o) by (done || by left).
    set (s1 := set_trace _ _).
    assert (forall g, g ∈ l -> heap s1 !! g = heap s !! g) as Hsame.
    { intros g Hg. simpl. apply list_lookup_insert_ne. by intros ->. }
    destruct (IH s1) as (s' & Hrun & Ht & Htr & Hheap); [done| | |].
    { intros g Hg. simpl. rewrite length_insert. apply Hl. by right. }
    { intros g o' Hg Ho'. rewrite Hsame in Ho' by done. eapply Hok; [by right|done]. }
    exists s'. repeat split; [done| | |].
    + eapply touches_trans; [|eapply touches_mono; [|done]; set_solver].
      eexists _, _. split; [done|]. split; [by rewrite length_insert|].
      intros g Hg. apply list_lookup_insert_ne. set_solver.
    + rewrite Htr. simpl. by rewrite <- app_assoc.
    + intros g o' [->|Hg]%elem_of_cons Ho'.
      * destruct Ht as (h & evs & -> & _ & Hh). simpl. rewrite Hh by done.
        rewrite Ho in Ho'. injection Ho' as <-.
        simpl. apply list_lookup_insert_eq. by apply lookup_lt_Some in Ho.
      * apply Hheap; [done|]. by rewrite Hsame.
Qed.

Lemma tick_end_cons g o l s :
  heap s !! g = Some o ->
  tick_end (g :: l) s =
  tick_end l
    (set_trace
       (trace s ++ Invoke "endGame" g ::
          match (gs_endGame o).2 with
          | Some e => [ConsoleLog ("error ending game " +:+ gs_id (gs_endGame o).1 +:+ ": ")
                         (Some e)]
          | None => []
          end)
       (set_heap (<[g := (gs_endGame o).1]> (heap s)) s)).
Proof.
  intros Ho. unfold tick_end. rewrite forEach_cons. unfold try_catch.
  rewrite (invoke_Some _ _ _ _ _ Ho). cbv zeta.
  destruct ((gs_endGame o).2) as [e|]; [|done].
  unfold with_game. simpl.
  rewrite list_lookup_insert_eq by (by apply lookup_lt_Some in Ho).
  unfold emit, modify. simpl. by rewrite <- app_assoc.
Qed.

(** The sweep over the finished sessions calls [endGame] on each of
    them, logs the failures and returns. *)
Lemma tick_end_spec l s :
  (forall g, g ∈ l -> g < length (heap s)) ->
  exists s' evs,
    tick_end l s = Returns tt s' /\
    touches l s s' /\
    trace s' = trace s ++ evs /\
    invocations "endGame" evs = l /\
    invocations "start" evs = [] /\
    (forall g o e, g ∈ l -> heap s !! g = Some o -> (gs_endGame o).2 = Some e ->
       ConsoleLog ("error ending game " +:+ gs_id (gs_endGame o).1 +:+ ": ") (Some e)
         ∈ evs).
Proof.
  revert s. induction l as [|a l IH]; intros s Hl.
  - exists s, []. rewrite app_nil_r.
    repeat split; try done; [apply touches_refl|].
    intros g o e Hg. by apply elem_of_nil in Hg.
  - destruct (lookup_lt_is_Some_2 (heap s) a) as [o Ho]; [apply Hl; by left|].
    rewrite (tick_end_cons _ _ _ _ Ho).
    set (ev := Invoke "endGame" a :: _). set (s1 := set_trace _ _).
    destruct (IH s1) as (s' & evs & Hrun & Ht & Htr & Hend & Hstart & Hlog).
    { intros g Hg. simpl. rewrite length_insert. apply Hl. by right. }
    exists s', (ev ++ evs). repeat split; [done| | | | |].
    + eapply touches_trans; [|eapply touches_mono; [|done]; set_solver].
      eexists _, _. split; [done|]. split; [by rewrite length_insert|].
      intros g Hg. apply list_lookup_insert_ne. set_solver.
    + rewrite Htr. simpl. by rewrite <- app_assoc.
    + rewrite invocations_app, Hend. unfold ev.
      by destruct ((gs_endGame o).2).
    + rewrite invocations_app, Hstart. unfold ev.
      by destruct ((gs_endGame o).2).
    + intros g o' e Hg Ho' He. apply elem_of_app.
      destruct (decide (g = a)) as [->|Hne].
      * left. rewrite Ho in Ho'. injection Ho' as <-.
        unfold ev. rewrite He. apply elem_of_cons. right.
        apply elem_of_cons. by left.
      * right. apply elem_of_cons in Hg as [?|Hg]; [done|].
        apply (Hlog g o' e); [done| |done].
        simpl. by rewrite list_lookup_insert_ne.
Qed.

(** *** [tick] step by step *)

Lemma tick_create_unfold frequency fuel now newID l s :
  tick_create frequency fuel now newID l s =
  if bool_decide (lastNewLobby s + gameCreationRate (config s) < now)%Z then
    match getNextMap_with frequency fuel (set_lastNewLobby now s) with
    | Returns m s1 =>
        Returns (l ++ [length (heap s1)])
          (set_heap (heap s1 ++
             [GameServer_new newID now true (config s1)
                (mkGameConfig m Public Medium false false false false 1000)]) s1)
    | Throws e s1 => Throws e s1
    | OutOfFuel => OutOfFuel
    end
  else Returns l s.
Proof.
  unfold tick_create, mbind, M_bind, gets, modify. simpl.
  case_bool_decide; [|done].
  by destruct (getNextMap_with frequency fuel (set_lastNewLobby now s)).
Qed.

(** What the creation step leaves behind when it returns. *)
Lemma tick_create_returns frequency fuel now newID l s l' s1 :
  tick_create frequency fuel now newID l s = Returns l' s1 ->
  (~ (lastNewLobby s + gameCreationRate (config s) < now)%Z /\ l' = l /\ s1 = s) \/
  ((lastNewLobby s + gameCreationRate (config s) < now)%Z /\
   exists m q r,
     getNextMap_with frequency fuel (set_lastNewLobby now s) =
     Returns m (set_mapsPlaylist q (set_random r (set_lastNewLobby now s))) /\
     l' = l ++ [length (heap s)] /\
     s1 = set_heap (heap s ++
            [GameServer_new newID now true (config s)
               (mkGameConfig m Public Medium false false false false 1000)])
            (set_mapsPlaylist q (set_random r (set_lastNewLobby now s)))).
Proof.
  rewrite tick_create_unfold. case_bool_decide as Hc.
  - destruct (getNextMap_with frequency fuel (set_lastNewLobby now s))
      as [m sm| |] eqn:Hm; [|done..].
    destruct (getNextMap_frame _ _ _ _ _ Hm) as (q & r & ->).
    intros [= <- <-]. right. split; [done|]. by exists m, q, r.
  - intros [= <- <-]. by left.
Qed.

Lemma tick_create_frame frequency fuel now newID l s l' s1 :
  tick_create frequency fuel now newID l s = Returns l' s1 ->
  trace s1 = trace s /\ games s1 = games s /\ config s1 = config s /\
  exists new, heap s1 = heap s ++ new.
Proof.
  intros [(_ & _ & ->)|(_ & m & q & r & _ & _ & ->)]%tick_create_returns.
  - repeat split. exists []. by rewrite app_nil_r.
  - repeat split. by eexists.
Qed.

Lemma tick_create_final frequency fuel now newID l s s1 :
  final (tick_create frequency fuel now newID l s) = Some s1 ->
  exists l', tick_create frequency fuel now newID l s = Returns l' s1.
Proof.
  rewrite tick_create_unfold. case_bool_decide as Hc.
  - destruct (getNextMap_with frequency fuel (set_lastNewLobby now s))
      as [m sm|e sm|] eqn:Hm; [| |done].
    + intros [= <-]. by eexists.
    + by apply getNextMap_not_throws in Hm.
  - intros [= <-]. by eexists.
Qed.

Lemma tick_start_startable s s1 :
  (exists new, heap s1 = heap s ++ new) ->
  tick_start (bucket Active s) s1 =
  forEach (startable s) (invoke "start" gs_start) s1.
Proof.
  intros [new Hnew]. unfold tick_start, filter_games, mbind, M_bind, startable.
  rewrite (filter_test_agree _ s s1); [done|].
  intros g Hg%bucket_allocated. rewrite Hnew. by apply lookup_app_l.
Qed.

Lemma tick_with_unfold frequency fuel now newID s :
  tick_with frequency fuel now newID s =
  match tick_create frequency fuel now newID (bucket Lobby s) s with
  | Returns l' s1 =>
      match tick_start (bucket Active s) s1 with
      | Returns _ s2 =>
          match tick_end (bucket Finished s) s2 with
          | Returns _ s3 => Returns tt (set_games (l' ++ bucket Active s) s3)
          | Throws e s3 => Throws e s3
          | OutOfFuel => OutOfFuel
          end
      | Throws e s2 => Throws e s2
      | OutOfFuel => OutOfFuel
      end
  | Throws e s1 => Throws e s1
  | OutOfFuel => OutOfFuel
  end.
Proof.
  unfold tick_with, gamesByPhase, filter_games, mbind, M_bind, gets, modify.
  fold (bucket Lobby s) (bucket Active s) (bucket Finished s).
  destruct (tick_create _ _ _ _ _ s) as [l' s1| |]; [|done..].
  destruct (tick_start _ s1) as [[] s2| |]; [|done..].
  by destruct (tick_end _ s2) as [[] s3| |].
Qed.

Lemma touches_length_heap l s s' : touches l s s' -> length (heap s') = length (heap s).
Proof. by intros (h & evs & -> & Hl & _). Qed.

Lemma touches_heap l s s' g : touches l s s' -> g ∉ l -> heap s' !! g = heap s !! g.
Proof. intros (h & evs & -> & _ & Hh) Hg. by apply Hh. Qed.

Lemma touches_fields l s s' :
  touches l s s' ->
  config s' = config s /\ lastNewLobby s' = lastNewLobby s /\
  games s' = games s /\ mapsPlaylist s' = mapsPlaylist s.
Proof. by intros (h & evs & -> & _ & _). Qed.

(** The calls a tick makes, however it ends: [start] on a prefix of
    the startable sessions, then [endGame] on finished ones only. *)
Lemma tick_with_final frequency fuel now newID s s' :
  final (tick_with frequency fuel now newID s) = Some s' ->
  exists k evs,
    trace s' = trace s ++ (Invoke "start" <$> take k (startable s)) ++ evs /\
    invocations "start" evs = [] /\
    forall g, g ∈ invocations "endGame" evs -> g ∈ bucket Finished s.
Proof.
  rewrite tick_with_unfold.
  destruct (tick_create _ _ _ _ _ s) as [l' s1|e s1|] eqn:Hc; [| |done].
  2:{ intros _. destruct (tick_create_final frequency fuel now newID (bucket Lobby s) s s1)
        as [? Hc']; [by rewrite Hc | congruence]. }
  destruct (tick_create_frame _ _ _ _ _ _ _ _ Hc) as (Htr1 & _ & _ & new & Hnew).
  rewrite (tick_start_startable s s1) by eauto.
  destruct (forEach_invoke_final "start" gs_start (startable s) s1)
    as (k & s2 & Hfin & Ht2 & Htr2 & _).
  { intros g Hg%startable_active%bucket_allocated. rewrite Hnew, length_app. lia. }
  destruct (forEach _ _ s1) as [[] s2'|e s2'|] eqn:Hs; simpl in Hfin; [| |done].
  - injection Hfin as ->.
    destruct (tick_end_spec (bucket Finished s) s2)
      as (s3 & evs & -> & _ & Htr3 & Hend & Hstart & _).
    { intros g Hg%bucket_allocated.
      rewrite (touches_length_heap _ _ _ Ht2), Hnew, length_app. lia. }
    intros [= <-]. exists k, evs. simpl.
    rewrite Htr3, Htr2, Htr1, <- app_assoc. repeat split; [done|].
    by rewrite Hend.
  - injection Hfin as ->. intros [= <-]. exists k, [].
    rewrite Htr2, Htr1, app_nil_r. repeat split. intros g Hg.
    by apply elem_of_nil in Hg.
Qed.

(** What a tick that returns has created. *)
Lemma tick_with_creation frequency fuel now newID s s' :
  tick_with frequency fuel now newID s = Returns tt s' ->
  config s' = config s /\
  ((lastNewLobby s + gameCreationRate (config s) < now)%Z ->
   exists m sm,
     getNextMap_with frequency fuel (set_lastNewLobby now s) = Returns m sm /\
     games s' = bucket Lobby s ++ [length (heap s)] ++ bucket Active s /\
     length (heap s') = S (length (heap s)) /\
     heap s' !! length (heap s) =
       Some (GameServer_new newID now true (config s)
               (mkGameConfig m Public Medium false false false false 1000)) /\
     lastNewLobby s' = now) /\
  (~ (lastNewLobby s + gameCreationRate (config s) < now)%Z ->
   games s' = bucket Lobby s ++ bucket Active s /\
   length (heap s') = length (heap s) /\
   lastNewLobby s' = lastNewLobby s).
Proof.
  rewrite tick_with_unfold.
  destruct (tick_create _ _ _ _ _ s) as [l' s1| |] eqn:Hc; [|done..].
  destruct (tick_create_frame _ _ _ _ _ _ _ _ Hc) as (_ & _ & Hcfg & new & Hnew).
  rewrite (tick_start_startable s s1) by eauto.
  destruct (forEach_invoke_final "start" gs_start (startable s) s1)
    as (k & s2 & Hfin & Ht2 & _).
  { intros g Hg%startable_active%bucket_allocated. rewrite Hnew, length_app. lia. }
  destruct (forEach _ _ s1) as [[] s2'| |] eqn:Hs; [|done..].
  injection Hfin as ->.
  destruct (tick_end_spec (bucket Finished s) s2) as (s3 & evs & -> & Ht3 & _).
  { intros g Hg%bucket_allocated.
    rewrite (touches_length_heap _ _ _ Ht2), Hnew, length_app. lia. }
  intros [= <-].
  destruct (touches_fields _ _ _ Ht2) as (Hc2 & Hl2 & _).
  destruct (touches_fields _ _ _ Ht3) as (Hc3 & Hl3 & _).
  assert (length (heap s3) = length (heap s1)) as Hlen.
  { by rewrite (touches_length_heap _ _ _ Ht3), (touches_length_heap _ _ _ Ht2). }
  split; [simpl; congruence|].
  apply tick_create_returns in Hc
    as [(Hno & -> & ->)|(Hyes & m & q & r & Hm & -> & ->)].
  - split; [done|]. intros _. simpl. repeat split; [done|congruence].
  - split; [|done]. intros _. eexists m, _. split; [exact Hm|]. simpl in *.
    repeat split.
    + by rewrite <- app_assoc.
    + rewrite Hlen, length_app. simpl. lia.
    + rewrite (touches_heap _ _ _ _ Ht3), (touches_heap _ _ _ _ Ht2).
      * by apply list_lookup_middle.
      * intros Hg%startable_active%bucket_allocated. lia.
      * intros Hg%bucket_allocated. lia.
    + congruence.
Qed.


Lemma invocations_start_take k l :
  invocations "endGame" (Invoke "start" <$> take k l) = [].
Proof. rewrite invocations_Invoke. by rewrite decide_False. Qed.

(** Only a call of [start] makes [tick] throw. *)
Lemma tick_throws_only_from_start frequency fuel now newID s e s' :
  tick_with frequency fuel now newID s = Throws e s' ->
  exists l' s1,
    tick_create frequency fuel now newID (bucket Lobby s) s = Returns l' s1 /\
    forEach (startable s) (invoke "start" gs_start) s1 = Throws e s'.
Proof.
  rewrite tick_with_unfold.
  destruct (tick_create _ _ _ _ _ s) as [l' s1|e1 s1|] eqn:Hc; [| |done].
  2:{ destruct (tick_create_final frequency fuel now newID (bucket Lobby s) s s1)
        as [? Hc']; [by rewrite Hc | congruence]. }
  destruct (tick_create_frame _ _ _ _ _ _ _ _ Hc) as (_ & _ & _ & new & Hnew).
  rewrite (tick_start_startable s s1) by eauto.
  destruct (forEach _ _ s1) as [[] s2|e2 s2|] eqn:Hs; [| |done].
  - destruct (forEach_invoke_final "start" gs_start (startable s) s1)
      as (k & s2' & Hfin & Ht2 & _).
    { intros g Hg%startable_active%bucket_allocated. rewrite Hnew, length_app. lia. }
    rewrite Hs in Hfin. injection Hfin as <-.
    destruct (tick_end_spec (bucket Finished s) s2) as (s3 & evs & -> & _); [|done].
    intros g Hg%bucket_allocated.
    rewrite (touches_length_heap _ _ _ Ht2), Hnew, length_app. lia.
  - intros [= <- <-]. by exists l', s1.
Qed.

(** [tick] keeps the references of [games] distinct and inside the
    store. *)
Lemma tick_keeps_games_distinct frequency fuel now newID s s' :
  NoDup (games s) ->
  tick_with frequency fuel now newID s = Returns tt s' ->
  NoDup (games s') /\ forall g, g ∈ games s' -> g < length (heap s').
Proof.
  intros Hnd Htick.
  destruct (tick_with_creation _ _ _ _ _ _ Htick) as (_ & Hyes & Hno).
  assert (forall g, g ∈ bucket Lobby s -> g ∉ bucket Active s) as Hdisj.
  { intros g H1 H2. by pose proof (bucket_disjoint _ _ _ _ H1 H2). }
  destruct (decide (lastNewLobby s + gameCreationRate (config s) < now)%Z) as [Hc|Hc].
  - destruct (Hyes Hc) as (m & sm & _ & -> & Hlen & _). split.
    + apply NoDup_app. split; [by apply NoDup_bucket|]. split.
      * intros g H1 [->%list_elem_of_singleton|H2]%elem_of_app.
        -- apply bucket_allocated in H1. lia.
        -- by apply (Hdisj g).
      * apply NoDup_cons. split; [|by apply NoDup_bucket].
        intros H%bucket_allocated. lia.
    + intros g [H|[->%list_elem_of_singleton|H]%elem_of_app]%elem_of_app;
        try apply bucket_allocated in H; lia.
  - destruct (Hno Hc) as (-> & Hlen & _). split.
    + apply NoDup_app. repeat split; [by apply NoDup_bucket|done|by apply NoDup_bucket].
    + intros g [H|H]%elem_of_app; apply bucket_allocated in H; lia.
Qed.

(** [createPrivateGame] keeps them so as well. *)
Lemma createPrivateGame_keeps_games_distinct id now s :
  NoDup (games s) ->
  (forall g, g ∈ games s -> g < length (heap s)) ->
  exists s',
    createPrivateGame id now s = Returns id s' /\
    games s' = games s ++ [length (heap s)] /\
    NoDup (games s') /\
    forall g, g ∈ games s' -> g < length (heap s').
Proof.
  intros Hnd Hin. eexists. split; [reflexivity|]. simpl.
  split; [done|]. split.
  - apply NoDup_app. split; [done|]. split; [|apply NoDup_singleton].
    intros g Hg Hnew%list_elem_of_singleton. apply Hin in Hg. lia.
  - intros g [Hg|Hnew%list_elem_of_singleton]%elem_of_app; rewrite length_app; simpl.
    + apply Hin in Hg. lia.
    + lia.
Qed.

(** X22.  A tick that gets as far as the sweep of the finished sessions
    (the creation step and the calls of [start] have returned) returns;
    it has called [endGame] on the sessions of the Finished bucket, on
    each of them once and in order, whether or not an earlier one
    threw; every failure is logged with the identifier of its session;
    none of these sessions is in [games] afterwards, and no later tick
    calls [endGame] on any of them. *)
Theorem tick_finished_sweep fuel now newID s l' s1 s2 :
  NoDup (games s) ->
  tick_create frequency fuel now newID (bucket Lobby s) s = Returns l' s1 ->
  tick_start (bucket Active s) s1 = Returns tt s2 ->
  exists s',
    tick fuel now newID s = Returns tt s' /\
    invocations "endGame" (trace s') =
      invocations "endGame" (trace s) ++ bucket Finished s /\
    NoDup (bucket Finished s) /\
    (forall g o e, g ∈ bucket Finished s -> heap s !! g = Some o ->
       (gs_endGame o).2 = Some e ->
       ConsoleLog ("error ending game " +:+ gs_id (gs_endGame o).1 +:+ ": ") (Some e)
         ∈ trace s') /\
    (forall g, g ∈ bucket Finished s -> g ∉ games s') /\
    (forall fuel2 now2 newID2 s'',
       final (tick fuel2 now2 newID2 s') = Some s'' ->
       exists later,
         invocations "endGame" (trace s'') =
           invocations "endGame" (trace s') ++ later /\
         forall g, g ∈ bucket Finished s -> g ∉ later).
Proof.
  intros Hnd Hc Hs. unfold tick.
  destruct (tick_create_frame _ _ _ _ _ _ _ _ Hc) as (Htr1 & _ & _ & new & Hnew).
  pose proof Hs as Hs'. rewrite (tick_start_startable s s1) in Hs' by eauto.
  destruct (forEach_invoke_final "start" gs_start (startable s) s1)
    as (k & s2' & Hfin & Ht2 & Htr2 & _).
  { intros g Hg%startable_active%bucket_allocated. rewrite Hnew, length_app. lia. }
  rewrite Hs' in Hfin. injection Hfin as <-.
  destruct (tick_end_spec (bucket Finished s) s2)
    as (s3 & evs & Hend & Ht3 & Htr3 & Hinv & _ & Hlog).
  { intros g Hg%bucket_allocated.
    rewrite (touches_length_heap _ _ _ Ht2), Hnew, length_app. lia. }
  assert (forall g, g ∈ bucket Finished s -> g ∉ l' ++ bucket Active s) as Hgone.
  { intros g Hg [Hin|Hin]%elem_of_app.
    - apply tick_create_returns in Hc
        as [(_ & -> & _)|(_ & m & q & r & _ & -> & _)].
      + by pose proof (bucket_disjoint _ _ _ _ Hg Hin).
      + apply elem_of_app in Hin as [Hin|Hin%list_elem_of_singleton].
        * by pose proof (bucket_disjoint _ _ _ _ Hg Hin).
        * apply bucket_allocated in Hg. lia.
    - by pose proof (bucket_disjoint _ _ _ _ Hg Hin). }
  exists (set_games (l' ++ bucket Active s) s3).
  split; [by rewrite tick_with_unfold, Hc, Hs, Hend|].
  split; [|split; [by apply NoDup_bucket|split; [|split; [exact Hgone|]]]].
  - simpl. rewrite Htr3, Htr2, Htr1, !invocations_app, invocations_start_take, Hinv.
    by rewrite app_nil_r.
  - intros g o e Hg Ho He. simpl. rewrite Htr3. apply elem_of_app. right.
    apply (Hlog g o e); [done| |done].
    rewrite (touches_heap _ _ _ g Ht2), Hnew.
    + rewrite lookup_app_l; [done | by apply bucket_allocated in Hg].
    + intros Hin%startable_active. by pose proof (bucket_disjoint _ _ _ _ Hg Hin).
  - intros fuel2 now2 newID2 s'' Hfin.
    apply tick_with_final in Hfin as (k2 & evs2 & Htr & _ & Hends).
    exists (invocations "endGame" evs2). split.
    + by rewrite Htr, !invocations_app, invocations_start_take.
    + intros g Hg Hin. apply Hends, elem_of_bucket in Hin as [Hin _].
      by apply (Hgone g).
Qed.

(** X23.  In a tick whose creation step returns and in which no call of
    [start] throws, [start] is called on the sessions that are in the
    Active bucket, public and not started, on each of them once and on
    no other session; and, [start] setting the started-flag, the next
    tick does not call [start] on any of them again. *)
Theorem tick_starts_public_active fuel now newID s l' s1 :
  NoDup (games s) ->
  tick_create frequency fuel now newID (bucket Lobby s) s = Returns l' s1 ->
  (forall g o, g ∈ startable s -> heap s !! g = Some o -> (gs_start o).2 = None) ->
  (forall o, (gs_start o).2 = None -> gs_hasStarted (gs_start o).1 = true) ->
  exists s',
    tick fuel now newID s = Returns tt s' /\
    invocations "start" (trace s') = invocations "start" (trace s) ++ startable s /\
    NoDup (startable s) /\
    (forall g, g ∈ startable s <->
       g ∈ games s /\
       exists o, heap s !! g = Some o /\ gs_phase o = Active /\
                 gs_isPublic o = true /\ gs_hasStarted o = false) /\
    (forall fuel2 now2 newID2 s'',
       final (tick fuel2 now2 newID2 s') = Some s'' ->
       exists later,
         invocations "start" (trace s'') =
           invocations "start" (trace s') ++ later /\
         forall g, g ∈ startable s -> g ∉ later).
Proof.
  intros Hnd Hc Hok Hflag. unfold tick.
  destruct (tick_create_frame _ _ _ _ _ _ _ _ Hc) as (Htr1 & _ & _ & new & Hnew).
  assert (forall g, g ∈ startable s -> heap s1 !! g = heap s !! g) as Hsame.
  { intros g Hg%startable_active%bucket_allocated. rewrite Hnew. by apply lookup_app_l. }
  assert (NoDup (startable s)) as Hnd'.
  { by apply NoDup_filter, NoDup_bucket. }
  destruct (forEach_invoke_returns "start" gs_start (startable s) s1)
    as (s2 & Hs & Ht2 & Htr2 & Hheap2); [done| | |].
  { intros g Hg%startable_active%bucket_allocated. rewrite Hnew, length_app. lia. }
  { intros g o Hg Ho. rewrite Hsame in Ho by done. by eapply Hok. }
  destruct (tick_end_spec (bucket Finished s) s2)
    as (s3 & evs & Hend & Ht3 & Htr3 & _ & Hnostart & _).
  { intros g Hg%bucket_allocated.
    rewrite (touches_length_heap _ _ _ Ht2), Hnew, length_app. lia. }
  exists (set_games (l' ++ bucket Active s) s3).
  split.
  { by rewrite tick_with_unfold, Hc, (tick_start_startable s s1), Hs, Hend by eauto. }
  split; [|split; [done|split; [apply elem_of_startable|]]].
  - simpl. rewrite Htr3, Htr2, Htr1, !invocations_app, Hnostart, invocations_Invoke.
    by rewrite decide_True, app_nil_r.
  - intros fuel2 now2 newID2 s'' Hfin.
    apply tick_with_final in Hfin as (k2 & evs2 & Htr & Hnostart2 & _).
    exists (take k2 (startable (set_games (l' ++ bucket Active s) s3))). split.
    + rewrite Htr, !invocations_app, Hnostart2, invocations_Invoke.
      by rewrite decide_True, app_nil_r.
    + intros g Hg Hin%subseteq_take.
      apply elem_of_startable in Hin as (_ & o' & Ho' & _ & _ & Hnot).
      pose proof Hg as (_ & o & Ho & _)%elem_of_startable.
      simpl in Ho'. rewrite (touches_heap _ _ _ g Ht3) in Ho'.
      * rewrite (Hheap2 g o) in Ho' by (done || by rewrite Hsame).
        injection Ho' as <-. rewrite Hflag in Hnot by (by eapply Hok). done.
      * intros Hfin'. apply startable_active in Hg.
        by pose proof (bucket_disjoint _ _ _ _ Hg Hfin').
Qed.

(** *** Request routing *)

Lemma addClient_unfold client gameID lastTurn s :
  addClient client gameID lastTurn s =
  match find_id gameID s (games s) with
  | Some g =>
      match invoke "addClient" (gs_addClient client lastTurn) g s with
      | Returns _ s' => Returns true s'
      | Throws e s' => Throws e s'
      | OutOfFuel => OutOfFuel
      end
  | None => Returns false s
  end.
Proof.
  unfold addClient, find_game, mbind, M_bind.
  by destruct (find_id gameID s (games s)).
Qed.

Lemma updateGameConfig_unfold gameID c s :
  updateGameConfig gameID c s =
  match find_id gameID s (games s) with
  | None =>
      Returns tt (set_trace (trace s ++ [ConsoleWarn ("game " +:+ gameID +:+ " not found")]) s)
  | Some g =>
      match heap s !! g with
      | Some o =>
          if gs_isPublic o
          then Returns tt (set_trace
                 (trace s ++ [ConsoleWarn ("cannot update public game " +:+ gameID)]) s)
          else invoke "updateGameConfig" (gs_updateGameConfig c) g s
      | None => Returns tt s
      end
  end.
Proof.
  unfold updateGameConfig, find_game, mbind, M_bind.
  destruct (find_id gameID s (games s)) as [g|]; [|done].
  unfold with_game. destruct (heap s !! g) as [o|]; [|done].
  by destruct (gs_isPublic o).
Qed.

(** C9.  When the session's own [addClient] accepts the join,
    [addClient] returns [true] if [games] has a session with the
    identifier, after handing the join to the first such session, and
    it returns [false], with nothing changed, if there is none. *)
Theorem addClient_routes client gameID lastTurn s :
  (forall o, (gs_addClient client lastTurn o).2 = None) ->
  ((exists g o, g ∈ games s /\ heap s !! g = Some o /\ gs_id o = gameID) ->
   exists g o,
     find_id gameID s (games s) = Some g /\ g ∈ games s /\
     heap s !! g = Some o /\ gs_id o = gameID /\
     addClient client gameID lastTurn s =
     Returns true
       (set_trace (trace s ++ [Invoke "addClient" g])
          (set_heap (<[g := (gs_addClient client lastTurn o).1]> (heap s)) s))) /\
  ((forall g o, g ∈ games s -> heap s !! g = Some o -> gs_id o <> gameID) ->
   addClient client gameID lastTurn s = Returns false s).
Proof.
  intros Haccept. rewrite addClient_unfold. split.
  - intros (g0 & o0 & Hg0 & Ho0 & Hid0).
    destruct (find_id gameID s (games s)) as [g|] eqn:Hfind.
    + destruct (find_id_Some _ _ _ _ Hfind) as (Hg & o & Ho & Hid).
      exists g, o. repeat split; try done.
      rewrite (invoke_Some _ _ _ _ _ Ho). cbv zeta. by rewrite Haccept.
    + exfalso. eapply find_id_None in Hfind; [|done..]. done.
  - intros Hnone. apply find_id_None in Hnone. by rewrite Hnone.
Qed.

(** C8.  When the session's own [updateGameConfig] does not throw,
    neither does the manager's.  For an identifier that [games] does not
    have, and for one whose session is public, it writes a warning and
    changes nothing else; only for a private session is the session's
    [updateGameConfig] called with the new record. *)
Theorem updateGameConfig_policy gameID c s :
  (forall o, (gs_updateGameConfig c o).2 = None) ->
  exists s',
    updateGameConfig gameID c s = Returns tt s' /\
    ((forall g o, g ∈ games s -> heap s !! g = Some o -> gs_id o <> gameID) ->
     s' = set_trace (trace s ++ [ConsoleWarn ("game " +:+ gameID +:+ " not found")]) s) /\
    (forall g o, find_id gameID s (games s) = Some g -> heap s !! g = Some o ->
       if gs_isPublic o
       then s' = set_trace
              (trace s ++ [ConsoleWarn ("cannot update public game " +:+ gameID)]) s
       else s' = set_trace (trace s ++ [Invoke "updateGameConfig" g])
              (set_heap (<[g := (gs_updateGameConfig c o).1]> (heap s)) s)).
Proof.
  intros Hquiet. rewrite updateGameConfig_unfold.
  destruct (find_id gameID s (games s)) as [g|] eqn:Hfind.
  - destruct (find_id_Some _ _ _ _ Hfind) as (Hg & o & Ho & Hid).
    rewrite Ho. destruct (gs_isPublic o) eqn:Hpub.
    + eexists. split; [done|]. split.
      * intros Hnone. exfalso. by eapply Hnone.
      * intros g' o' [= <-] Ho'. rewrite Ho in Ho'. injection Ho' as <-.
        by rewrite Hpub.
    + rewrite (invoke_Some _ _ _ _ _ Ho). cbv zeta. rewrite Hquiet.
      eexists. split; [done|]. split.
      * intros Hnone. exfalso. by eapply Hnone.
      * intros g' o' [= <-] Ho'. rewrite Ho in Ho'. injection Ho' as <-.
        by rewrite Hpub.
  - eexists. split; [done|]. split; [done|]. intros; discriminate.
Qed.

(** C10.  For a private session the manager's [updateGameConfig] calls
    the session's [updateGameConfig] with the new record whatever the
    phase of the session is. *)
Theorem updateGameConfig_private_any_phase gameID c s g o phase :
  find_id gameID s (games s) = Some g ->
  heap s !! g = Some o ->
  gs_isPublic o = false ->
  gs_phase o = phase ->
  updateGameConfig gameID c s =
  let s' := set_trace (trace s ++ [Invoke "updateGameConfig" g])
              (set_heap (<[g := (gs_updateGameConfig c o).1]> (heap s)) s) in
  match (gs_updateGameConfig c o).2 with
  | None => Returns tt s'
  | Some e => Throws e s'
  end.
Proof.
  intros Hfind Ho Hpriv _. rewrite updateGameConfig_unfold, Hfind, Ho, Hpriv.
  by apply invoke_Some.
Qed.

(** *** Lookups and phase buckets *)

Lemma find_id_first gameID s l g :
  find_id gameID s l = Some g ->
  exists i,
    l !! i = Some g /\
    forall j g' o', j < i -> l !! j = Some g' -> heap s !! g' = Some o' ->
                    gs_id o' <> gameID.
Proof.
  induction l as [|a l IH]; simpl; [done|].
  destruct (test _ s a) eqn:Ha.
  - intros [= <-]. exists 0. split; [done|]. intros; lia.
  - intros (i & Hi & Hbefore)%IH. exists (S i). split; [done|].
    intros [|j] g' o' Hj Hg' Ho'.
    + injection Hg' as <-. unfold test in Ha. rewrite Ho' in Ha.
      by apply bool_decide_eq_false in Ha.
    + apply (Hbefore j g' o'); [lia|done..].
Qed.

(** X6.  [game(id)] changes nothing and returns the first session of
    [games] whose identifier is [id]: no earlier entry has that
    identifier, and it returns nothing exactly when no entry has it. *)
Theorem game_finds_first id s :
  exists r,
    game id s = Returns r s /\
    match r with
    | Some g =>
        exists i o,
          games s !! i = Some g /\ heap s !! g = Some o /\ gs_id o = id /\
          forall j g' o', j < i -> games s !! j = Some g' ->
                          heap s !! g' = Some o' -> gs_id o' <> id
    | None => forall g o, g ∈ games s -> heap s !! g = Some o -> gs_id o <> id
    end.
Proof.
  exists (find_id id s (games s)). split; [done|].
  destruct (find_id id s (games s)) as [g|] eqn:Hfind.
  - destruct (find_id_Some _ _ _ _ Hfind) as (_ & o & Ho & Hid).
    destruct (find_id_first _ _ _ _ Hfind) as (i & Hi & Hbefore).
    by exists i, o.
  - by apply find_id_None.
Qed.

Lemma hasActiveGame_unfold gameID s :
  hasActiveGame gameID s =
  Returns
    (bool_decide
       (0 < length
          (filter (fun g => test (fun o => bool_decide (gs_phase o = Lobby)
                                        || bool_decide (gs_phase o = Active)) s g = true)
             (filter (fun g => test (fun o => bool_decide (gs_id o = gameID)) s g = true)
                (games s))))) s.
Proof. done. Qed.

Lemma hasActiveGame_true gameID s :
  hasActiveGame gameID s = Returns true s <->
  exists g o, g ∈ games s /\ heap s !! g = Some o /\ gs_id o = gameID /\
              (gs_phase o = Lobby \/ gs_phase o = Active).
Proof.
  rewrite hasActiveGame_unfold. split.
  - intros [= Hb%bool_decide_eq_true].
    destruct (filter _ (filter _ (games s))) as [|g l] eqn:E; [simpl in Hb; lia|].
    assert (g ∈ g :: l) as Hg by (by left). rewrite <- E in Hg.
    apply list_elem_of_filter in Hg as [(o & Ho & Hph)%test_true Hg].
    apply list_elem_of_filter in Hg as [(o' & Ho' & Hid)%test_true Hg].
    rewrite Ho in Ho'. injection Ho' as <-.
    exists g, o. repeat split; [done..| |].
    + by apply bool_decide_eq_true in Hid.
    + apply orb_true_iff in Hph as [H|H]; apply bool_decide_eq_true in H; auto.
  - intros (g & o & Hg & Ho & Hid & Hph). f_equal. apply bool_decide_eq_true.
    assert (g ∈ filter (fun g => test (fun o => bool_decide (gs_phase o = Lobby)
                                          || bool_decide (gs_phase o = Active)) s g = true)
              (filter (fun g => test (fun o => bool_decide (gs_id o = gameID)) s g = true)
                 (games s))) as Hin.
    { apply list_elem_of_filter. split.
      - apply test_true. exists o. split; [done|]. apply orb_true_iff.
        destruct Hph as [H|H]; [left|right]; by apply bool_decide_eq_true.
      - apply list_elem_of_filter. split; [|done].
        apply test_true. exists o. split; [done|]. by apply bool_decide_eq_true. }
    destruct (filter _ (filter _ (games s))); [by apply elem_of_nil in Hin|].
    simpl. lia.
Qed.

(** X7.  [hasActiveGame(id)] changes nothing; it answers [true] exactly
    when some session of [games], not only the first, has the identifier
    and is in phase Lobby or Active. *)
Theorem hasActiveGame_iff gameID s :
  exists b,
    hasActiveGame gameID s = Returns b s /\
    (b = true <->
     exists g o, g ∈ games s /\ heap s !! g = Some o /\ gs_id o = gameID /\
                 (gs_phase o = Lobby \/ gs_phase o = Active)).
Proof.
  pose proof (hasActiveGame_true gameID s) as Htrue.
  rewrite hasActiveGame_unfold in *. eexists. split; [done|].
  rewrite <- Htrue. split; [by intros -> | by intros [= ->]].
Qed.

Lemma filter_phase_partition s l :
  (forall g, g ∈ l -> g < length (heap s)) ->
  l ≡ₚ
    filter (fun g => test (fun o => bool_decide (gs_phase o = Lobby)) s g = true) l ++
    filter (fun g => test (fun o => bool_decide (gs_phase o = Active)) s g = true) l ++
    filter (fun g => test (fun o => bool_decide (gs_phase o = Finished)) s g = true) l.
Proof.
  induction l as [|a l IH]; intros Hl; [done|].
  destruct (lookup_lt_is_Some_2 (heap s) a) as [o Ho]; [apply Hl; by left|].
  specialize (IH (fun g Hg => Hl g (list_elem_of_further _ _ _ Hg))).
  assert (forall ph, test (fun o => bool_decide (gs_phase o = ph)) s a
                     = bool_decide (gs_phase o = ph)) as Ht.
  { intros ph. unfold test. by rewrite Ho. }
  rewrite !filter_cons, !Ht.
  destruct (gs_phase o); simpl.
  - by rewrite <- IH.
  - rewrite <- Permutation_middle. by rewrite <- IH.
  - rewrite app_assoc, <- Permutation_middle, <- app_assoc. by rewrite <- IH.
Qed.

(** X8.  [gamesByPhase] changes nothing, and when every reference of
    [games] is a stored session, the Lobby, Active and Finished buckets
    together hold the sessions of [games], each of them in one bucket
    only. *)
Theorem gamesByPhase_partition s :
  (forall g, g ∈ games s -> g < length (heap s)) ->
  (forall phase, gamesByPhase phase s = Returns (bucket phase s) s) /\
  games s ≡ₚ bucket Lobby s ++ bucket Active s ++ bucket Finished s /\
  (forall g phase phase',
     g ∈ bucket phase s -> g ∈ bucket phase' s -> phase = phase').
Proof.
  intros Hin. split; [done|]. split.
  - by apply filter_phase_partition.
  - intros g phase phase'. apply bucket_disjoint.
Qed.

(** *** More on [tick] *)

(** The steps of a tick that returns. *)
Lemma tick_with_returns frequency fuel now newID s s' :
  tick_with frequency fuel now newID s = Returns tt s' ->
  exists l' s1 s2 s3,
    tick_create frequency fuel now newID (bucket Lobby s) s = Returns l' s1 /\
    forEach (startable s) (invoke "start" gs_start) s1 = Returns tt s2 /\
    touches (startable s) s1 s2 /\
    tick_end (bucket Finished s) s2 = Returns tt s3 /\
    touches (bucket Finished s) s2 s3 /\
    s' = set_games (l' ++ bucket Active s) s3.
Proof.
  rewrite tick_with_unfold.
  destruct (tick_create _ _ _ _ _ s) as [l' s1| |] eqn:Hc; [|done..].
  destruct (tick_create_frame _ _ _ _ _ _ _ _ Hc) as (_ & _ & _ & new & Hnew).
  rewrite (tick_start_startable s s1) by eauto.
  destruct (forEach_invoke_final "start" gs_start (startable s) s1)
    as (k & s2 & Hfin & Ht2 & _).
  { intros g Hg%startable_active%bucket_allocated. rewrite Hnew, length_app. lia. }
  destruct (forEach _ _ s1) as [[] s2'| |] eqn:Hs; [|done..].
  injection Hfin as ->.
  destruct (tick_end_spec (bucket Finished s) s2) as (s3 & evs & Hend & Ht3 & _).
  { intros g Hg%bucket_allocated.
    rewrite (touches_length_heap _ _ _ Ht2), Hnew, length_app. lia. }
  rewrite Hend. intros [= <-]. by exists l', s1, s2, s3.
Qed.

(** X9.  A tick that returns removes finished sessions only: every
    session of [games] that is not in phase Finished is still in [games],
    whether anybody ever starts or ends it, and [games] gains nothing but
    the one new lobby. *)
Theorem tick_removes_only_finished fuel now newID s s' :
  tick fuel now newID s = Returns tt s' ->
  (forall g o, g ∈ games s -> heap s !! g = Some o -> gs_phase o <> Finished ->
     g ∈ games s') /\
  (forall g, g ∈ games s' ->
     (g ∈ games s /\ g ∉ bucket Finished s) \/ g = length (heap s)).
Proof.
  intros Htick. unfold tick in Htick.
  destruct (tick_with_creation _ _ _ _ _ _ Htick) as (_ & Hyes & Hno).
  assert (forall g, g ∈ bucket Lobby s ++ bucket Active s ->
            g ∈ games s /\ g ∉ bucket Finished s) as Hold.
  { intros g [Hg|Hg]%elem_of_app; (split; [by apply elem_of_bucket in Hg as [? _]|]);
      intros Hf; by pose proof (bucket_disjoint _ _ _ _ Hg Hf). }
  assert (forall g o, g ∈ games s -> heap s !! g = Some o -> gs_phase o <> Finished ->
            g ∈ bucket Lobby s \/ g ∈ bucket Active s) as Hkeep.
  { intros g o Hg Ho Hph. destruct (gs_phase o) eqn:E; [left|right|done];
      apply elem_of_bucket; eauto. }
  destruct (decide (lastNewLobby s + gameCreationRate (config s) < now)%Z) as [Hc|Hc].
  - destruct (Hyes Hc) as (m & sm & _ & -> & _). split.
    + intros g o Hg Ho Hph. rewrite !elem_of_app.
      destruct (Hkeep g o Hg Ho Hph); auto.
    + intros g [Hg|[Hg%list_elem_of_singleton|Hg]%elem_of_app]%elem_of_app.
      * left. apply Hold, elem_of_app. by left.
      * by right.
      * left. apply Hold, elem_of_app. by right.
  - destruct (Hno Hc) as (-> & _). split.
    + intros g o Hg Ho Hph. rewrite elem_of_app. by apply (Hkeep g o).
    + intros g Hg. left. by apply Hold.
Qed.

(** X10.  [tick] keeps the store sound: when the references of [games]
    are distinct before a tick that returns, they are distinct after it
    and each of them is a stored session. *)
Theorem tick_keeps_store_sound fuel now newID s s' :
  NoDup (games s) ->
  tick fuel now newID s = Returns tt s' ->
  NoDup (games s') /\ forall g, g ∈ games s' -> g < length (heap s').
Proof. apply tick_keeps_games_distinct. Qed.

(** X11.  When [tick] throws, [games] is what it was and no [endGame]
    has been called; but a lobby that was due has been built and
    [lastNewLobby] set to [now], so that the lobby is in no list and a
    tick less than the creation interval later builds none. *)
Theorem tick_exception_state fuel now newID s e s' :
  tick fuel now newID s = Throws e s' ->
  games s' = games s /\
  invocations "endGame" (trace s') = invocations "endGame" (trace s) /\
  ((lastNewLobby s + gameCreationRate (config s) < now)%Z ->
   lastNewLobby s' = now /\ length (heap s') = S (length (heap s)) /\
   forall fuel2 now2 newID2 s'',
     (now2 - now < gameCreationRate (config s))%Z ->
     tick fuel2 now2 newID2 s' = Returns tt s'' ->
     length (heap s'') = length (heap s')) /\
  (~ (lastNewLobby s + gameCreationRate (config s) < now)%Z ->
   lastNewLobby s' = lastNewLobby s /\ length (heap s') = length (heap s)).
Proof.
  intros Htick. unfold tick in Htick.
  apply tick_throws_only_from_start in Htick as (l' & s1 & Hc & Hs).
  destruct (tick_create_frame _ _ _ _ _ _ _ _ Hc) as (Htr1 & Hg1 & Hcfg1 & new & Hnew).
  destruct (forEach_invoke_final "start" gs_start (startable s) s1)
    as (k & s2 & Hfin & Ht2 & Htr2 & _).
  { intros g Hg%startable_active%bucket_allocated. rewrite Hnew, length_app. lia. }
  rewrite Hs in Hfin. injection Hfin as <-.
  destruct (touches_fields _ _ _ Ht2) as (Hcfg2 & Hl2 & Hg2 & _).
  pose proof (touches_length_heap _ _ _ Ht2) as Hlen2.
  split; [congruence|]. split.
  { rewrite Htr2, Htr1, invocations_app, invocations_start_take. by rewrite app_nil_r. }
  apply tick_create_returns in Hc
    as [(Hno & _ & ->)|(Hyes & m & q & r & _ & _ & ->)].
  - split; [done|]. intros _. split; congruence.
  - split; [|done]. intros _. simpl in *.
    split; [done|]. split; [rewrite Hlen2, length_app; simpl; lia|].
    intros fuel2 now2 newID2 s'' Hsoon Htick2. unfold tick in Htick2.
    destruct (tick_with_creation _ _ _ _ _ _ Htick2) as (_ & _ & Hno2).
    destruct Hno2 as (_ & Hlen & _); [|done].
    rewrite Hl2, Hcfg2. simpl. lia.
Qed.

Lemma forEach_invoke_throws name method l s e s' :
  NoDup l ->
  (forall g, g ∈ l -> g < length (heap s)) ->
  forEach l (invoke name method) s = Throws e s' ->
  exists l1 g l2 o,
    l = l1 ++ g :: l2 /\ heap s !! g = Some o /\ (method o).2 = Some e /\
    (forall g' o', g' ∈ l1 -> heap s !! g' = Some o' -> (method o').2 = None) /\
    trace s' = trace s ++ (Invoke name <$> (l1 ++ [g])).
Proof.
  revert s. induction l as [|a l IH]; intros s Hnd Hl; [done|].
  apply NoDup_cons in Hnd as [Ha Hnd].
  destruct (lookup_lt_is_Some_2 (heap s) a) as [o Ho]; [apply Hl; by left|].
  rewrite forEach_cons, (invoke_Some _ _ _ _ _ Ho). cbv zeta.
  destruct ((method o).2) as [e0|] eqn:He.
  - intros [= <- <-]. exists [], a, l, o. repeat split; [done..|].
    intros g' o' Hg'. by apply elem_of_nil in Hg'.
  - set (s1 := set_trace _ _). intros Hrun.
    assert (forall g, g ∈ l -> heap s1 !! g = heap s !! g) as Hsame.
    { intros g Hg. simpl. apply list_lookup_insert_ne. by intros ->. }
    destruct (IH s1) as (l1 & g & l2 & o' & -> & Ho' & He' & Hbefore & Htr);
      [done| |done|].
    { intros g Hg. simpl. rewrite length_insert. apply Hl. by right. }
    exists (a :: l1), g, l2, o'. repeat split; [| done | |].
    + rewrite <- Hsame; [done|]. apply elem_of_app. right. by left.
    + intros g' o'' [->|Hg']%elem_of_cons Ho''.
      * rewrite Ho in Ho''. by injection Ho'' as <-.
      * apply (Hbefore g' o''); [done|]. rewrite Hsame; [done|].
        apply elem_of_app. by left.
    + rewrite Htr. simpl. by rewrite <- app_assoc.
Qed.

(** X12.  With distinct references in [games], the exception that leaves
    [tick] is the one of the first startable session whose [start]
    throws: the startable sessions before it have been started, the ones
    after it have not. *)
Theorem tick_throws_at_first_failing_start fuel now newID s e s' :
  NoDup (games s) ->
  tick fuel now newID s = Throws e s' ->
  exists l1 g l2 o,
    startable s = l1 ++ g :: l2 /\
    heap s !! g = Some o /\ (gs_start o).2 = Some e /\
    (forall g' o', g' ∈ l1 -> heap s !! g' = Some o' -> (gs_start o').2 = None) /\
    invocations "start" (trace s') = invocations "start" (trace s) ++ l1 ++ [g].
Proof.
  intros Hnd Htick. unfold tick in Htick.
  apply tick_throws_only_from_start in Htick as (l' & s1 & Hc & Hs).
  destruct (tick_create_frame _ _ _ _ _ _ _ _ Hc) as (Htr1 & _ & _ & new & Hnew).
  assert (forall g, g ∈ startable s -> heap s1 !! g = heap s !! g) as Hsame.
  { intros g Hg%startable_active%bucket_allocated. rewrite Hnew. by apply lookup_app_l. }
  apply forEach_invoke_throws in Hs as (l1 & g & l2 & o & Heq & Ho & He & Hbefore & Htr).
  - exists l1, g, l2, o. split; [done|].
    rewrite Hsame in Ho by (rewrite Heq, elem_of_app; right; by left).
    repeat split; [done..| |].
    + intros g' o' Hg' Ho'. apply (Hbefore g' o'); [done|].
      rewrite Hsame; [done|]. rewrite Heq, elem_of_app. by left.
    + rewrite Htr, Htr1, invocations_app, invocations_Invoke.
      by rewrite decide_True.
  - by apply NoDup_filter, NoDup_bucket.
  - intros g Hg%startable_active%bucket_allocated. rewrite Hnew, length_app. lia.
Qed.

(** X13.  A tick that builds a lobby while the queue is not empty gives
    it the head of the queue, which it removes, and does not shuffle. *)
Theorem tick_creation_takes_queue_head fuel now newID s s' m q :
  tick fuel now newID s = Returns tt s' ->
  (lastNewLobby s + gameCreationRate (config s) < now)%Z ->
  mapsPlaylist s = m :: q ->
  heap s' !! length (heap s) =
    Some (GameServer_new newID now true (config s)
            (mkGameConfig (Some m) Public Medium false false false false 1000)) /\
  mapsPlaylist s' = q /\ random s' = random s.
Proof.
  intros Htick Hc Hq. unfold tick in Htick.
  destruct (tick_with_creation _ _ _ _ _ _ Htick) as (_ & Hyes & _).
  destruct (Hyes Hc) as (m0 & sm & Hm & _ & _ & Hnew & _).
  apply tick_with_returns in Htick
    as (l' & s1 & s2 & s3 & Hcreate & _ & Ht2 & _ & Ht3 & ->).
  rewrite getNextMap_shift in Hm by (simpl; by rewrite Hq).
  unfold shift in Hm. simpl in Hm. rewrite Hq in Hm. injection Hm as <- <-.
  split; [done|].
  apply tick_create_returns in Hcreate
    as [(Hno & _)|(_ & m1 & q1 & r1 & Hm1 & _ & ->)]; [done|].
  rewrite getNextMap_shift in Hm1 by (simpl; by rewrite Hq).
  unfold shift in Hm1. simpl in Hm1. rewrite Hq in Hm1.
  injection Hm1 as _ Hq1 Hr1.
  destruct Ht2 as (h2 & e2 & -> & _). destruct Ht3 as (h3 & e3 & -> & _).
  simpl. by split.
Qed.

(** X14.  A tick with nothing to do (no lobby due, nothing to start,
    nothing finished) changes [games] only: it puts the lobbies before
    the active sessions; the store, the console and the other fields
    stay. *)
Theorem tick_quiet fuel now newID s :
  ~ (lastNewLobby s + gameCreationRate (config s) < now)%Z ->
  startable s = [] ->
  bucket Finished s = [] ->
  (forall g, g ∈ games s -> g < length (heap s)) ->
  tick fuel now newID s =
    Returns tt (set_games (bucket Lobby s ++ bucket Active s) s) /\
  bucket Lobby s ++ bucket Active s ≡ₚ games s.
Proof.
  intros Hc Hstart Hfin Hin. split.
  - unfold tick. rewrite tick_with_unfold, tick_create_unfold.
    rewrite bool_decide_false by done.
    rewrite (tick_start_startable s s) by (exists []; by rewrite app_nil_r).
    rewrite Hstart, Hfin. done.
  - symmetry. etransitivity; [apply (filter_phase_partition s (games s) Hin)|].
    fold (bucket Lobby s) (bucket Active s) (bucket Finished s).
    by rewrite Hfin, app_nil_r.
Qed.

(** *** Private games *)

Lemma find_id_app gameID s l1 l2 :
  find_id gameID s (l1 ++ l2) =
  match find_id gameID s l1 with
  | Some g => Some g
  | None => find_id gameID s l2
  end.
Proof.
  induction l1 as [|a l1 IH]; simpl; [done|].
  by destruct (test _ s a).
Qed.

(** X15.  [createPrivateGame] returns the identifier it was given and
    puts one new private session with the fixed configuration at the end
    of [games]; the sessions there are, the playlist, [lastNewLobby] and
    the console stay as they are, and the store stays sound. *)
Theorem createPrivateGame_appends id now s :
  (forall g, g ∈ games s -> g < length (heap s)) ->
  exists s',
    createPrivateGame id now s = Returns id s' /\
    games s' = games s ++ [length (heap s)] /\
    (length (heap s) ∉ games s) /\
    heap s' !! length (heap s) =
      Some (GameServer_new id now false (config s)
              (mkGameConfig (Some (GameMapType_get "World")) Private Medium
                 false false false false 1000)) /\
    (forall g, g < length (heap s) -> heap s' !! g = heap s !! g) /\
    lastNewLobby s' = lastNewLobby s /\
    mapsPlaylist s' = mapsPlaylist s /\
    trace s' = trace s /\
    (NoDup (games s) -> NoDup (games s')) /\
    (forall g, g ∈ games s' -> g < length (heap s')).
Proof.
  intros Hin. eexists. split; [reflexivity|]. simpl.
  split; [done|]. split; [intros Hg%Hin; lia|].
  split; [by apply list_lookup_middle|].
  split; [intros g Hg; by apply lookup_app_l|].
  do 3 (split; [done|]). split.
  - intros Hnd. apply NoDup_app. split; [done|]. split; [|apply NoDup_singleton].
    intros g Hg Hnew%list_elem_of_singleton. apply Hin in Hg. lia.
  - intros g [Hg|Hnew%list_elem_of_singleton]%elem_of_app; rewrite length_app; simpl.
    + apply Hin in Hg. lia.
    + lia.
Qed.

(** X16.  When the session that [createPrivateGame] builds reports the
    identifier it was built with and is in phase Lobby or Active,
    [hasActiveGame] of that identifier is [true] right after
    [createPrivateGame]. *)
Theorem createPrivateGame_then_hasActiveGame id now s :
  let new := GameServer_new id now false (config s)
               (mkGameConfig (Some (GameMapType_get "World")) Private Medium
                  false false false false 1000) in
  gs_id new = id ->
  gs_phase new = Lobby \/ gs_phase new = Active ->
  exists s',
    createPrivateGame id now s = Returns id s' /\
    hasActiveGame id s' = Returns true s'.
Proof.
  intros new Hid Hph. eexists. split; [reflexivity|].
  apply hasActiveGame_true. exists (length (heap s)), new. simpl.
  split; [apply elem_of_app; right; by left|].
  split; [by apply list_lookup_middle|]. done.
Qed.

(** X17.  When the new session reports its identifier, no session of
    [games] has that identifier yet and the store is sound, [game] of the
    identifier finds the session that [createPrivateGame] has just
    added. *)
Theorem createPrivateGame_then_game id now s :
  let new := GameServer_new id now false (config s)
               (mkGameConfig (Some (GameMapType_get "World")) Private Medium
                  false false false false 1000) in
  gs_id new = id ->
  (forall g, g ∈ games s -> g < length (heap s)) ->
  (forall g o, g ∈ games s -> heap s !! g = Some o -> gs_id o <> id) ->
  exists s',
    createPrivateGame id now s = Returns id s' /\
    game id s' = Returns (Some (length (heap s))) s' /\
    heap s' !! length (heap s) = Some new.
Proof.
  intros new Hid Hin Hfree. eexists. split; [reflexivity|].
  split; [|by apply list_lookup_middle].
  unfold game, find_game. f_equal. simpl. rewrite find_id_app.
  match goal with |- context [find_id id ?s' (games s)] =>
    assert (find_id id s' (games s) = None) as -> end.
  { apply find_id_None. intros g o Hg Ho. simpl in Ho.
    rewrite lookup_app_l in Ho by (by apply Hin). by apply (Hfree g). }
  simpl. unfold test. simpl.
  rewrite list_lookup_middle by done. fold new.
  by rewrite bool_decide_true.
Qed.

(** X18.  [startPrivateGame] throws for an identifier that [games] does
    not have, after one console line and without touching a session;
    otherwise it calls [start] on the first session with the identifier,
    without looking at its visibility, its phase or its started-flag, and
    an exception of that [start] leaves [startPrivateGame]. *)
Theorem startPrivateGame_cases gameID s :
  match find_id gameID s (games s) with
  | None =>
      startPrivateGame gameID s =
      Throws ("cannot start private game, game " +:+ gameID +:+ " not found")
        (set_trace (trace s ++ [ConsoleLog "found game undefined" None]) s)
  | Some g =>
      forall o, heap s !! g = Some o ->
      startPrivateGame gameID s =
      let s' := set_trace
                  (trace s ++ [ConsoleLog "found game [object Object]" None;
                               Invoke "start" g])
                  (set_heap (<[g := (gs_start o).1]> (heap s)) s) in
      match (gs_start o).2 with
      | None => Returns tt s'
      | Some e => Throws e s'
      end
  end.
Proof.
  unfold startPrivateGame, find_game, mbind, M_bind, emit, modify.
  destruct (find_id gameID s (games s)) as [g|]; [|done].
  intros o Ho. unfold invoke. simpl. rewrite Ho, <- app_assoc.
  by destruct ((gs_start o).2).
Qed.

(** X19.  However they end, [addClient] and [updateGameConfig] leave
    [games], [lastNewLobby] and the playlist alone, create and remove no
    session, and change no session but the one [find] returns. *)
Theorem routing_touches_one_session client gameID lastTurn c s :
  (forall s', final (addClient client gameID lastTurn s) = Some s' ->
     games s' = games s /\ lastNewLobby s' = lastNewLobby s /\
     mapsPlaylist s' = mapsPlaylist s /\ length (heap s') = length (heap s) /\
     forall g, find_id gameID s (games s) <> Some g -> heap s' !! g = heap s !! g) /\
  (forall s', final (updateGameConfig gameID c s) = Some s' ->
     games s' = games s /\ lastNewLobby s' = lastNewLobby s /\
     mapsPlaylist s' = mapsPlaylist s /\ length (heap s') = length (heap s) /\
     forall g, find_id gameID s (games s) <> Some g -> heap s' !! g = heap s !! g).
Proof.
  assert (forall g0 s', touches [g0] s s' -> find_id gameID s (games s) = Some g0 ->
            games s' = games s /\ lastNewLobby s' = lastNewLobby s /\
            mapsPlaylist s' = mapsPlaylist s /\ length (heap s') = length (heap s) /\
            forall g, find_id gameID s (games s) <> Some g -> heap s' !! g = heap s !! g)
    as Hone.
  { intros g0 s' Ht Hfind.
    destruct (touches_fields _ _ _ Ht) as (_ & ? & ? & ?).
    repeat split; [done..|by eapply touches_length_heap|].
    intros g Hg. apply (touches_heap _ _ _ g Ht).
    intros ->%list_elem_of_singleton. congruence. }
  split; intros s'.
  - rewrite addClient_unfold.
    destruct (find_id gameID s (games s)) as [g0|] eqn:Hfind.
    + destruct (invoke_final "addClient" (gs_addClient client lastTurn) g0 s)
        as (s1 & Hfin & Ht).
      destruct (invoke _ _ g0 s) as [[] s2|e s2|]; simpl in *; [| |done].
      * injection Hfin as ->. intros [= <-]. by apply (Hone g0).
      * injection Hfin as ->. intros [= <-]. by apply (Hone g0).
    + by intros [= <-].
  - rewrite updateGameConfig_unfold.
    destruct (find_id gameID s (games s)) as [g0|] eqn:Hfind.
    + destruct (heap s !! g0) as [o|]; [|by intros [= <-]].
      destruct (gs_isPublic o); [by intros [= <-]|].
      destruct (invoke_final "updateGameConfig" (gs_updateGameConfig c) g0 s)
        as (s1 & Hfin & Ht).
      rewrite Hfin. intros [= <-]. by apply (Hone g0).
    + by intros [= <-].
Qed.

Lemma forEach_invoke_ids name method l s s' :
  (forall o, gs_id (method o).1 = gs_id o) ->
  final (forEach l (invoke name method) s) = Some s' ->
  forall g, gs_id <$> (heap s' !! g) = gs_id <$> (heap s !! g).
Proof.
  intros Hid. revert s. induction l as [|a l IH]; intros s.
  - by intros [= <-].
  - rewrite forEach_cons. unfold invoke at 1.
    destruct (heap s !! a) as [o|] eqn:Ho; [|apply IH].
    set (s1 := set_trace _ _).
    assert (forall g, gs_id <$> (heap s1 !! g) = gs_id <$> (heap s !! g)) as Hs1.
    { intros g. simpl. destruct (decide (g = a)) as [->|Hne].
      - rewrite list_lookup_insert_eq by (by apply lookup_lt_Some in Ho).
        rewrite Ho. simpl. by rewrite Hid.
      - by rewrite list_lookup_insert_ne. }
    destruct ((method o).2).
    + intros [= <-]. done.
    + intros Hfin g. by rewrite (IH s1 Hfin g).
Qed.

Lemma tick_games_origin frequency fuel now newID s s' g :
  tick_with frequency fuel now newID s = Returns tt s' ->
  g ∈ games s' ->
  (g ∈ games s /\ (g ∉ bucket Finished s) /\ exists o, heap s !! g = Some o) \/
  g = length (heap s).
Proof.
  intros Htick Hg.
  destruct (tick_with_creation _ _ _ _ _ _ Htick) as (_ & Hyes & Hno).
  assert (forall g, g ∈ bucket Lobby s ++ bucket Active s ->
            g ∈ games s /\ (g ∉ bucket Finished s) /\ exists o, heap s !! g = Some o)
    as Hold.
  { intros g' [Hg'|Hg']%elem_of_app;
      (pose proof Hg' as Hb; apply elem_of_bucket in Hb as (? & o & ? & _);
       split; [done|]; split; [|by exists o]);
      intros Hf; by pose proof (bucket_disjoint _ _ _ _ Hg' Hf). }
  destruct (decide (lastNewLobby s + gameCreationRate (config s) < now)%Z) as [Hc|Hc].
  - destruct (Hyes Hc) as (m & sm & _ & Hgames & _). rewrite Hgames in Hg.
    apply elem_of_app in Hg as [Hg|[Hg%list_elem_of_singleton|Hg]%elem_of_app].
    + left. apply Hold, elem_of_app. by left.
    + by right.
    + left. apply Hold, elem_of_app. by right.
  - destruct (Hno Hc) as (Hgames & _). rewrite Hgames in Hg. left. by apply Hold.
Qed.

(** X20.  After a tick that returns, an identifier that only finished
    sessions had is gone: [game] finds nothing and [hasActiveGame] is
    [false], provided [start] keeps the identifier of its session and
    the new lobby has another one. *)
Theorem tick_forgets_finished_identifier fuel now newID s s' gameID :
  tick fuel now newID s = Returns tt s' ->
  (forall o, gs_id (gs_start o).1 = gs_id o) ->
  (forall c, gs_id (GameServer_new newID now true (config s) c) <> gameID) ->
  (forall g o, g ∈ games s -> heap s !! g = Some o -> gs_id o = gameID ->
     gs_phase o = Finished) ->
  game gameID s' = Returns None s' /\
  hasActiveGame gameID s' = Returns false s'.
Proof.
  intros Htick Hstart Hnew Hfin.
  assert (forall g o', g ∈ games s' -> heap s' !! g = Some o' -> gs_id o' <> gameID)
    as Hnone.
  { pose proof Htick as Htick'. unfold tick in Htick'.
    destruct (tick_with_creation _ _ _ _ _ _ Htick') as (_ & Hyes & _).
    pose proof (fun g => tick_games_origin _ _ _ _ _ _ g Htick') as Hfrom.
    apply tick_with_returns in Htick'
      as (l' & s1 & s2 & s3 & Hcreate & Hs & Ht2 & _ & Ht3 & ->).
    destruct (tick_create_frame _ _ _ _ _ _ _ _ Hcreate) as (_ & _ & _ & new & Hheap1).
    intros g o' Hg Ho'. destruct (Hfrom g Hg) as [(Hgs & Hnf & o & Ho)| ->].
    - simpl in Ho'. rewrite (touches_heap _ _ _ g Ht3) in Ho' by done.
      assert (gs_id <$> (heap s2 !! g) = gs_id <$> (heap s1 !! g)) as Hids.
      { apply (forEach_invoke_ids "start" gs_start (startable s) s1 s2 Hstart).
        by rewrite Hs. }
      rewrite Ho', Hheap1, lookup_app_l, Ho in Hids by (by apply lookup_lt_Some in Ho).
      injection Hids as Hids. rewrite Hids. intros Heq.
      apply Hnf, elem_of_bucket. split; [done|]. exists o. split; [done|].
      by apply (Hfin g).
    - destruct (decide (lastNewLobby s + gameCreationRate (config s) < now)%Z) as [Hc|Hc].
      + destruct (Hyes Hc) as (m & sm & _ & _ & _ & Hlook & _).
        rewrite Hlook in Ho'. injection Ho' as <-. apply Hnew.
      + exfalso. apply tick_create_returns in Hcreate
          as [(_ & -> & _)|(Hc' & _)]; [|done].
        apply elem_of_app in Hg as [Hg|Hg]; apply bucket_allocated in Hg; lia. }
  split.
  - unfold game, find_game. f_equal. by apply find_id_None.
  - rewrite hasActiveGame_unfold. f_equal. apply bool_decide_eq_false. intros Hpos.
    assert (hasActiveGame gameID s' = Returns true s') as Htrue.
    { rewrite hasActiveGame_unfold. f_equal. by apply bool_decide_eq_true. }
    apply hasActiveGame_true in Htrue as (g & o & Hg & Ho & Hid & _).
    by apply (Hnone g o).
Qed.

(** X21.  What the result of [addClient] tells its caller: [false] means
    that no session of [games] has the identifier and that nothing has
    changed; [true] means that a session has it and that its [addClient]
    returned; an exception is the one of that session's [addClient],
    which the manager does not catch. *)
Theorem addClient_outcomes client gameID lastTurn s s' :
  (addClient client gameID lastTurn s = Returns false s' ->
   s' = s /\
   forall g o, g ∈ games s -> heap s !! g = Some o -> gs_id o <> gameID) /\
  (addClient client gameID lastTurn s = Returns true s' ->
   exists g o, find_id gameID s (games s) = Some g /\ heap s !! g = Some o /\
               gs_id o = gameID /\ (gs_addClient client lastTurn o).2 = None) /\
  (forall e, addClient client gameID lastTurn s = Throws e s' ->
   exists g o, find_id gameID s (games s) = Some g /\ heap s !! g = Some o /\
               gs_id o = gameID /\ (gs_addClient client lastTurn o).2 = Some e) /\
  addClient client gameID lastTurn s <> OutOfFuel.
Proof.
  rewrite addClient_unfold.
  destruct (find_id gameID s (games s)) as [g|] eqn:Hfind.
  - destruct (find_id_Some _ _ _ _ Hfind) as (_ & o & Ho & Hid).
    rewrite (invoke_Some _ _ _ _ _ Ho). cbv zeta.
    destruct ((gs_addClient client lastTurn o).2) as [e|] eqn:He.
    + repeat split; try done. intros e' [= <- <-]. by exists g, o.
    + repeat split; try done. intros _. by exists g, o.
  - split; [|done]. intros [= <-]. split; [done | by apply find_id_None].
Qed.

End Scheduler.

(** ** The scheduler on concrete inputs *)

Module Examples.
Import Model.

(** *** The shuffle of the model permutes *)

Lemma draw_permutes {A} n seed (l acc : list A) : (draw n seed l acc).2 ≡ₚ acc ++ l.
Proof.
  revert seed l acc. induction n as [|n IH]; intros seed l acc; simpl; [done|].
  destruct (l !! _) as [x|] eqn:Hx; [|done].
  rewrite IH, <- app_assoc. simpl.
  by rewrite <- (delete_Permutation l _ x Hx).
Qed.

Lemma shuffleArray_permutes (r : Z) (l : list string) : (shuffleArray r l).2 ≡ₚ l.
Proof. apply (draw_permutes (length l) r l []). Qed.

Lemma keys_NoDup : NoDup (GameMapType_keys (MapT := string)).
Proof. compute_done. Qed.

Lemma Session_start_sets_flag (o : Session) :
  (gs_start o).2 = None -> gs_hasStarted (gs_start o).1 = true.
Proof. simpl. unfold Session_start. by destruct (s_startError o). Qed.

Lemma Session_addClient_accepts client lastTurn (o : Session) :
  (gs_addClient client lastTurn o).2 = None.
Proof. simpl. unfold Session_addClient. by destruct (s_phase o). Qed.

(** *** The tick *)

(** C1.  An active public session whose [start] throws: the exception
    leaves [tick], which neither ends the finished session nor drops it
    from [games]. *)
Theorem tick_start_failure_escapes :
  exists s',
    tick 0 0 "n" failing_start = Throws "start failed" s' /\
    games s' = [0; 1] /\
    invocations "endGame" (trace s') = [].
Proof. eexists. split; [vm_compute; reflexivity|]. by split. Qed.

Lemma tick_finished_sweep_witness :
  NoDup (games three_finished) /\
  tick_create frequency 0 0 "n" (bucket Lobby three_finished) three_finished
    = Returns [4] three_finished /\
  tick_start (bucket Active three_finished) three_finished
    = Returns tt three_finished_started /\
  exists s',
    tick 0 0 "n" three_finished = Returns tt s' /\
    invocations "endGame" (trace s') = [0; 1; 2] /\
    ConsoleLog "error ending game f2: " (Some "notify failed") ∈ trace s' /\
    (forall g, g ∈ [0; 1; 2] -> g ∉ games s').
Proof.
  assert (NoDup (games three_finished)) as H1 by exact (NoDup_seq 0 5).
  assert (tick_create frequency 0 0 "n" (bucket Lobby three_finished) three_finished
          = Returns [4] three_finished) as H2 by (vm_compute; reflexivity).
  assert (tick_start (bucket Active three_finished) three_finished
          = Returns tt three_finished_started) as H3 by (vm_compute; reflexivity).
  split; [exact H1|]. split; [exact H2|]. split; [exact H3|].
  destruct (tick_finished_sweep 0 0 "n" three_finished _ _ _ H1 H2 H3)
    as (s' & Htick & Hends & _ & Hlog & Hgone & _).
  exists s'. repeat split; try assumption.
  apply (Hlog 1 (session "f2" true Finished true None (Some "notify failed"))
           "notify failed"); [|reflexivity..].
  change (1 ∈ [0; 1; 2]). apply elem_of_cons. right. apply elem_of_cons. by left.
Defined.


Lemma tick_starts_public_active_witness :
  NoDup (games active_sessions) /\
  tick_create frequency 0 0 "n" (bucket Lobby active_sessions) active_sessions
    = Returns [3] active_sessions /\
  exists s',
    tick 0 0 "n" active_sessions = Returns tt s' /\
    invocations "start" (trace s') = [0].
Proof.
  assert (NoDup (games active_sessions)) as H1 by exact (NoDup_seq 0 4).
  assert (tick_create frequency 0 0 "n" (bucket Lobby active_sessions) active_sessions
          = Returns [3] active_sessions) as H2 by (vm_compute; reflexivity).
  split; [exact H1|]. split; [exact H2|].
  destruct (tick_starts_public_active 0 0 "n" active_sessions _ _ H1 H2)
    as (s' & Htick & Hstarts & _).
  - intros g o Hg Ho. change (g ∈ [0]) in Hg.
    apply list_elem_of_singleton in Hg as ->. by injection Ho as <-.
  - apply Session_start_sets_flag.
  - by exists s'.
Defined.

(** *** The playlist *)

Lemma reshuffle_single_identifier_forever :
  ~ exists fuel, getNextMap_with single_table fuel empty_manager <> OutOfFuel.
Proof.
  intros [fuel H]. apply H. rewrite getNextMap_refill by reflexivity.
  apply (reshuffle_single_identifier shuffleArray_permutes fuel _ 0 "World").
  reflexivity.
Qed.

Lemma playlist_cycle_non_consecutive_witness :
  mapsPlaylist empty_manager = [] /\
  getNextMap_with two_table 5 empty_manager = Returns (Some "World") two_table_refilled /\
  exists q s',
    nextMaps two_table 5 (length q) empty_manager = Returns (Some <$> q) s' /\
    2 <= length q /\ NonConsecutive q.
Proof.
  assert (getNextMap_with two_table 5 empty_manager
          = Returns (Some "World") two_table_refilled) as H by (vm_compute; reflexivity).
  assert (mapsPlaylist empty_manager = []) as He by reflexivity.
  split; [exact He|]. split; [exact H|].
  destruct (playlist_cycle_non_consecutive shuffleArray_permutes two_table 5
              empty_manager (Some "World") two_table_refilled)
    as (q & s' & Hcalls & _ & _ & Hlen & Hnc); [|exact He|exact H|].
  2:{ exists q, s'. split; [exact Hcalls|]. split; [exact Hlen|exact Hnc]. }
  exists "World", "Europe", 1%Z, 1%Z.
  split; [compute_done|]. split; [compute_done|]. split; [discriminate|].
  split; [vm_compute; reflexivity|]. split; [vm_compute; reflexivity|].
  split; reflexivity.
Defined.

Lemma playlist_cycle_matches_table_witness :
  mapsPlaylist empty_manager = [] /\
  getNextMap_with frequency 50 empty_manager = Returns (Some "Mena") refilled /\
  exists q s',
    nextMaps frequency 50 (length q) empty_manager = Returns (Some <$> q) s' /\
    occurrences "World" q = 4 /\ occurrences "Oceania" q = 1 /\
    occurrences "Mars" q = 0.
Proof.
  assert (getNextMap_with frequency 50 empty_manager
          = Returns (Some "Mena") refilled) as H by (vm_compute; reflexivity).
  assert (mapsPlaylist empty_manager = []) as He by reflexivity.
  split; [exact He|]. split; [exact H|].
  destruct (playlist_cycle_matches_table shuffleArray_permutes frequency 50
              empty_manager (Some "Mena") refilled keys_NoDup)
    as (q & s' & Hcalls & _ & _ & _ & Hocc & _);
    [by intros key1 key2 _ _|exact He|exact H|].
  exists q, s'. split; [exact Hcalls|].
  repeat split; [apply (Hocc "World")|apply (Hocc "Oceania")|apply (Hocc "Mars")];
    compute_done.
Defined.

(** *** Request routing *)

Lemma addClient_routes_witness :
  (forall o : Session, (gs_addClient "client" 7%Z o).2 = None) /\
  (exists s', addClient "client" "p2" 7%Z mixed_sessions = Returns true s') /\
  addClient "client" "nobody" 7%Z mixed_sessions = Returns false mixed_sessions.
Proof.
  pose proof (Session_addClient_accepts "client" 7%Z) as H.
  split; [exact H|].
  destruct (addClient_routes "client" "p2" 7%Z mixed_sessions H) as [Hfound _].
  destruct (addClient_routes "client" "nobody" 7%Z mixed_sessions H) as [_ Hnone].
  split.
  - destruct Hfound as (g & o & _ & _ & _ & _ & Hadd); [|by eexists].
    exists 2, (session "p2" false Active true None None).
    repeat split. compute_done.
  - apply Hnone. intros g o Hg Ho Hid.
    change (g ∈ [0; 1; 2; 3]) in Hg.
    repeat (apply elem_of_cons in Hg as [->|Hg];
            [injection Ho as <-; discriminate Hid|]).
    by apply elem_of_nil in Hg.
Defined.

Lemma updateGameConfig_policy_witness :
  (forall o : Session, (gs_updateGameConfig new_config o).2 = None) /\
  exists s',
    updateGameConfig "pub" new_config mixed_sessions = Returns tt s' /\
    heap s' = heap mixed_sessions.
Proof.
  assert (forall o : Session, (gs_updateGameConfig new_config o).2 = None) as H
    by reflexivity.
  split; [exact H|].
  destruct (updateGameConfig_policy "pub" new_config mixed_sessions H)
    as (s' & Hrun & _ & Hfound).
  exists s'. split; [exact Hrun|].
  by rewrite (Hfound 0 (session "pub" true Lobby false None None)).
Defined.

Lemma updateGameConfig_private_any_phase_witness :
  (exists s', updateGameConfig "p1" new_config mixed_sessions = Returns tt s' /\
              s_config <$> heap s' !! 1 = Some new_config) /\
  (exists s', updateGameConfig "p2" new_config mixed_sessions = Returns tt s' /\
              s_config <$> heap s' !! 2 = Some new_config) /\
  (exists s', updateGameConfig "p3" new_config mixed_sessions = Returns tt s' /\
              s_config <$> heap s' !! 3 = Some new_config).
Proof.
  split; [|split].
  - eexists. split.
    + rewrite (updateGameConfig_private_any_phase "p1" new_config mixed_sessions 1
                 (session "p1" false Lobby false None None) Lobby) by reflexivity.
      reflexivity.
    + reflexivity.
  - eexists. split.
    + rewrite (updateGameConfig_private_any_phase "p2" new_config mixed_sessions 2
                 (session "p2" false Active true None None) Active) by reflexivity.
      reflexivity.
    + reflexivity.
  - eexists. split.
    + rewrite (updateGameConfig_private_any_phase "p3" new_config mixed_sessions 3
                 (session "p3" false Finished true None None) Finished) by reflexivity.
      reflexivity.
    + reflexivity.
Defined.

(** *** Further runs *)

Lemma Session_start_keeps_id (o : Session) : gs_id (gs_start o).1 = gs_id o.
Proof. simpl. unfold Session_start. by destruct (s_startError o). Qed.

Lemma nextMaps_fifo_witness :
  3 <= length (mapsPlaylist first_tick) /\
  nextMaps frequency 0 3 first_tick =
    Returns [Some "Europe"; Some "World"; Some "NorthAmerica"]
      (set_mapsPlaylist (drop 3 (mapsPlaylist first_tick)) first_tick).
Proof.
  assert (3 <= length (mapsPlaylist first_tick)) as H by (vm_compute; lia).
  split; [exact H|].
  exact (nextMaps_fifo frequency 0 3 first_tick H).
Defined.

Lemma getNextMap_empty_table_witness :
  mapsPlaylist empty_manager = [] /\
  (forall key, key ∈ GameMapType_keys (MapT := string) -> weight empty_table key = 0) /\
  exists s', getNextMap_with empty_table 1 empty_manager = Returns None s'.
Proof.
  assert (forall key, key ∈ GameMapType_keys (MapT := string) ->
            weight empty_table key = 0) as Hw.
  { apply Forall_forall. compute_done. }
  split; [reflexivity|]. split; [exact Hw|].
  destruct (getNextMap_empty_table shuffleArray_permutes empty_table 0 empty_manager
              eq_refl Hw) as (s' & Hrun & _).
  by exists s'.
Defined.

Lemma getNextMap_distinct_one_shuffle_witness :
  mapsPlaylist empty_manager = [] /\
  NoDup (working_list (MapT := string) two_table) /\
  exists v s', getNextMap_with two_table 1 empty_manager = Returns v s'.
Proof.
  assert (NoDup (working_list (MapT := string) two_table)) as Hnd by compute_done.
  split; [reflexivity|]. split; [exact Hnd|].
  destruct (getNextMap_distinct_one_shuffle shuffleArray_permutes two_table 0
              empty_manager eq_refl Hnd) as (q & s' & Hrun & _).
  by exists (head q), s'.
Defined.

Lemma three_finished_sound : forall g, g ∈ games three_finished -> g < length (heap three_finished).
Proof. apply Forall_forall. compute_done. Qed.

Lemma gamesByPhase_partition_witness :
  (forall g, g ∈ games three_finished -> g < length (heap three_finished)) /\
  games three_finished ≡ₚ
    bucket Lobby three_finished ++ bucket Active three_finished ++
    bucket Finished three_finished.
Proof.
  split; [exact three_finished_sound|].
  by destruct (gamesByPhase_partition three_finished three_finished_sound) as (_ & H & _).
Defined.

Lemma three_finished_tick :
  tick 0 0 "n" three_finished = Returns tt three_finished_after.
Proof. vm_compute. reflexivity. Qed.

Lemma tick_removes_only_finished_witness :
  tick 0 0 "n" three_finished = Returns tt three_finished_after /\
  3 ∈ games three_finished_after /\ 4 ∈ games three_finished_after.
Proof.
  split; [exact three_finished_tick|].
  destruct (tick_removes_only_finished 0 0 "n" three_finished three_finished_after
              three_finished_tick) as [Hkeep _].
  split.
  - apply (Hkeep 3 (session "a" true Active false None None));
      [compute_done | reflexivity | discriminate].
  - apply (Hkeep 4 (session "l" true Lobby false None None));
      [compute_done | reflexivity | discriminate].
Defined.

Lemma tick_keeps_store_sound_witness :
  NoDup (games three_finished) /\
  tick 0 0 "n" three_finished = Returns tt three_finished_after /\
  NoDup (games three_finished_after).
Proof.
  assert (NoDup (games three_finished)) as H by exact (NoDup_seq 0 5).
  split; [exact H|]. split; [exact three_finished_tick|].
  by destruct (tick_keeps_store_sound 0 0 "n" three_finished three_finished_after
                 H three_finished_tick).
Defined.

Lemma failing_start_tick :
  tick 50 5000 "n" failing_start = Throws "start failed" failing_start_after.
Proof. vm_compute. reflexivity. Qed.

Lemma tick_exception_state_witness :
  tick 50 5000 "n" failing_start = Throws "start failed" failing_start_after /\
  games failing_start_after = games failing_start /\
  lastNewLobby failing_start_after = 5000%Z /\
  length (heap failing_start_after) = 3.
Proof.
  split; [exact failing_start_tick|].
  destruct (tick_exception_state 50 5000 "n" failing_start "start failed"
              failing_start_after failing_start_tick) as (Hgames & _ & Hdue & _).
  destruct Hdue as (Hlast & Hlen & _); [reflexivity|].
  by repeat split.
Defined.

Lemma tick_throws_at_first_failing_start_witness :
  NoDup (games failing_start) /\
  tick 50 5000 "n" failing_start = Throws "start failed" failing_start_after /\
  exists g o, g ∈ startable failing_start /\ heap failing_start !! g = Some o /\
              (gs_start o).2 = Some "start failed".
Proof.
  assert (NoDup (games failing_start)) as H by exact (NoDup_seq 0 2).
  split; [exact H|]. split; [exact failing_start_tick|].
  destruct (tick_throws_at_first_failing_start 50 5000 "n" failing_start "start failed"
              failing_start_after H failing_start_tick)
    as (l1 & g & l2 & o & Heq & Ho & He & _).
  exists g, o. split; [|by split].
  rewrite Heq. apply elem_of_app. right. by left.
Defined.

Lemma second_tick_run : tick 50 7000 "g2" first_tick = Returns tt second_tick.
Proof. vm_compute. reflexivity. Qed.

Lemma tick_creation_takes_queue_head_witness :
  tick 50 7000 "g2" first_tick = Returns tt second_tick /\
  (lastNewLobby first_tick + gameCreationRate (config first_tick) < 7000)%Z /\
  mapsPlaylist first_tick = "Europe" :: drop 1 (mapsPlaylist first_tick) /\
  s_config <$> heap second_tick !! 1 =
    Some (mkGameConfig (Some "Europe") Public Medium false false false false 1000) /\
  random second_tick = random first_tick.
Proof.
  assert (lastNewLobby first_tick + gameCreationRate (config first_tick) < 7000)%Z
    as Hdue by reflexivity.
  assert (mapsPlaylist first_tick = "Europe" :: drop 1 (mapsPlaylist first_tick))
    as Hq by reflexivity.
  split; [exact second_tick_run|]. split; [exact Hdue|]. split; [exact Hq|].
  destruct (tick_creation_takes_queue_head 50 7000 "g2" first_tick second_tick
              "Europe" _ second_tick_run Hdue Hq) as (Hnew & _ & Hr).
  split; [|exact Hr].
  change (length (heap first_tick)) with 1 in Hnew. by rewrite Hnew.
Defined.

Lemma quiet_sessions_sound : forall g, g ∈ games quiet_sessions -> g < length (heap quiet_sessions).
Proof. apply Forall_forall. compute_done. Qed.

Lemma tick_quiet_witness :
  ~ (lastNewLobby quiet_sessions + gameCreationRate (config quiet_sessions) < 0)%Z /\
  startable quiet_sessions = [] /\
  bucket Finished quiet_sessions = [] /\
  exists s', tick 0 0 "n" quiet_sessions = Returns tt s' /\ games s' = [1; 0].
Proof.
  assert (~ (lastNewLobby quiet_sessions + gameCreationRate (config quiet_sessions) < 0)%Z)
    as H1 by discriminate.
  assert (startable quiet_sessions = []) as H2 by reflexivity.
  assert (bucket Finished quiet_sessions = []) as H3 by reflexivity.
  split; [exact H1|]. split; [exact H2|]. split; [exact H3|].
  destruct (tick_quiet 0 0 "n" quiet_sessions H1 H2 H3 quiet_sessions_sound) as [Hrun _].
  eexists. split; [exact Hrun|]. reflexivity.
Defined.

Lemma mixed_sessions_sound : forall g, g ∈ games mixed_sessions -> g < length (heap mixed_sessions).
Proof. apply Forall_forall. compute_done. Qed.

Lemma createPrivateGame_appends_witness :
  (forall g, g ∈ games mixed_sessions -> g < length (heap mixed_sessions)) /\
  exists s', createPrivateGame "p4" 9 mixed_sessions = Returns "p4" s' /\
             games s' = [0; 1; 2; 3; 4].
Proof.
  split; [exact mixed_sessions_sound|].
  destruct (createPrivateGame_appends "p4" 9 mixed_sessions mixed_sessions_sound)
    as (s' & Hrun & Hgames & _).
  exists s'. by split.
Defined.

Lemma createPrivateGame_then_hasActiveGame_witness :
  exists s', createPrivateGame "p4" 9 mixed_sessions = Returns "p4" s' /\
             hasActiveGame "p4" s' = Returns true s'.
Proof.
  apply (createPrivateGame_then_hasActiveGame "p4" 9 mixed_sessions);
    [reflexivity | by left].
Defined.

Lemma createPrivateGame_then_game_witness :
  exists s', createPrivateGame "p4" 9 mixed_sessions = Returns "p4" s' /\
             game "p4" s' = Returns (Some 4) s'.
Proof.
  destruct (createPrivateGame_then_game "p4" 9 mixed_sessions)
    as (s' & Hrun & Hgame & _).
  - reflexivity.
  - exact mixed_sessions_sound.
  - intros g o Hg Ho Hid. change (g ∈ [0; 1; 2; 3]) in Hg.
    each_session Hg Ho ltac:(discriminate Hid).
  - by exists s'.
Defined.

Lemma tick_forgets_finished_identifier_witness :
  tick 0 0 "n" three_finished = Returns tt three_finished_after /\
  game "f2" three_finished_after = Returns None three_finished_after /\
  hasActiveGame "f2" three_finished_after = Returns false three_finished_after.
Proof.
  split; [exact three_finished_tick|].
  apply (tick_forgets_finished_identifier 0 0 "n" three_finished three_finished_after "f2").
  - exact three_finished_tick.
  - exact Session_start_keeps_id.
  - intros c. discriminate.
  - intros g o Hg Ho Hid. change (g ∈ [0; 1; 2; 3; 4]) in Hg.
    each_session Hg Ho ltac:(first [reflexivity | discriminate Hid]).
Defined.

(** *** Ticks in which [start] throws *)

(** C2.  Three finished sessions and an active public session whose
    [start] throws: the exception leaves [tick] before the sweep, so
    [endGame] is called on none of the finished sessions and all three
    are still in [games] after the tick. *)
Theorem tick_start_failure_skips_sweep :
  bucket Finished failing_start_three_finished = [1; 2; 3] /\
  exists s',
    tick 0 0 "n" failing_start_three_finished = Throws "start failed" s' /\
    invocations "endGame" (trace s') = [] /\
    games s' = [0; 1; 2; 3].
Proof.
  split; [reflexivity|]. eexists. split; [vm_compute; reflexivity|]. by split.
Qed.

(** C7.  Two sessions in the Active bucket, public and not started, the
    first of which throws in [start]: [tick] calls [start] on the first
    one only; the second one is never started in this tick. *)
Theorem tick_start_failure_skips_later_starts :
  startable two_startable = [0; 1] /\
  exists s',
    tick 0 0 "n" two_startable = Throws "start failed" s' /\
    invocations "start" (trace s') = [0] /\
    s_started <$> heap s' !! 1 = Some false.
Proof.
  split; [reflexivity|]. eexists. split; [vm_compute; reflexivity|]. by split.
Qed.

(** With the table [{World: 2}] no sequence of calls from the empty queue
    returns, so no cycle has [World] twice. *)
Lemma playlist_cycle_single_table_not_produced :
  ~ exists fuel q s',
      nextMaps single_table fuel (length q) empty_manager = Returns (Some <$> q) s' /\
      occurrences "World" q = 2.
Proof.
  intros (fuel & q & s' & Hrun & Hocc).
  destruct q as [|m q]; [discriminate Hocc|].
  assert (getNextMap_with single_table fuel empty_manager = OutOfFuel) as Hdiv.
  { rewrite getNextMap_refill by reflexivity.
    apply (reshuffle_single_identifier shuffleArray_permutes fuel _ 0 "World").
    reflexivity. }
  cbn [length nextMaps] in Hrun. unfold mbind, M_bind at 1 in Hrun.
  rewrite Hdiv in Hrun. discriminate Hrun.
Qed.

End Examples.
